(** * Heteroflow: the node/graph substrate ([heteroflow/core/graph.hpp])

    A shallow embedding of [hf::Node]: the payload variant and its
    classification predicates, the dependency-edge bookkeeping
    ([Node::_precede]), the union-find fields and their two operations
    ([Node::_root], [Node::_union]), the [DeviceGroup] record and the
    Graphviz rendering ([Node::dump]).

    Nodes are heap objects whose identity is their address, so the program
    state is a finite map from addresses to node records; every member
    function takes the address of [this] and threads the heap. *)

From Stdlib Require Import ZArith Lia Ascii.
From stdpp Require Import gmap strings list fin_maps relations.

Open Scope Z_scope.

(** ** Machine integers *)

Definition INT_MIN : Z := - 2 ^ 31.
Definition INT_MAX : Z := 2 ^ 31 - 1.

(** Two's-complement wrap-around of a 32-bit [int]; this is what
    [std::atomic<int>::fetch_add] does on overflow. *)
Definition wrap_int (z : Z) : Z := (z + 2 ^ 31) mod 2 ^ 32 - 2 ^ 31.

(** ** Outcomes of a member function

    [Ret] is normal return.  The other constructors are the ways a call can
    leave the defined behaviour of the program: a dereference of an address
    that holds no node, a failed [assert], overflow of a plain [int], and the
    exhaustion of the fuel that bounds a loop in the model. *)

Inductive outcome (A : Type) : Type :=
  | Ret (a : A)
  | BadPtr
  | AssertFail
  | Overflow
  | NoFuel.

Arguments Ret {A} a.
Arguments BadPtr {A}.
Arguments AssertFail {A}.
Arguments Overflow {A}.
Arguments NoFuel {A}.

Definition obind {A B} (m : outcome A) (k : A -> outcome B) : outcome B :=
  match m with
  | Ret a => k a
  | BadPtr => BadPtr
  | AssertFail => AssertFail
  | Overflow => Overflow
  | NoFuel => NoFuel
  end.

Notation "'let!' x ':=' m 'in' k" := (obind m (fun x => k))
  (at level 10, x pattern, m at level 100, k at level 200).

(** ** Data model *)

(** Addresses of nodes (and of the other objects nodes point to) are
    numbers of type [N]; [nullptr] is address 0. *)
Definition nullptr : N := 0%N.

(** The five payload structs.  The [work] callables are opaque to every
    operation of this file and are kept as an identifier. *)
Inductive Handle : Type :=
  | Host (work : N)
  | Pull (work : N) (device : Z) (d_data : N) (d_size : N)
  | Push (work : N) (source : N)
  | Kernel (work : N) (device : Z) (sources : list N)
  | Transfer (work : N) (source : N) (target : N).

(** [nstd::variant<Host, Pull, Push, Kernel, Transfer>::index()]: the
    position of the active alternative in the template argument list. *)
Definition index (h : Handle) : Z :=
  match h with
  | Host _ => 0
  | Pull _ _ _ _ => 1
  | Push _ _ => 2
  | Kernel _ _ _ => 3
  | Transfer _ _ _ => 4
  end.

Definition HOST_IDX : Z := 0.
Definition PULL_IDX : Z := 1.
Definition PUSH_IDX : Z := 2.
Definition KERNEL_IDX : Z := 3.
Definition TRANSFER_IDX : Z := 4.

Record Node : Type := mkNode {
  _name : string;
  _handle : Handle;
  _successors : list N;
  _dependents : list N;
  _num_dependents : Z;
  _parent : N;
  _tree_size : Z;
  _group : N;
  _topology : N
}.

(** A node as its constructor leaves it, at address [this]: empty name and
    adjacency lists, counter 0, [_parent {this}], [_tree_size {1}], no group
    and no topology. *)
Definition new_Node (this : N) (h : Handle) : Node :=
  {| _name := ""; _handle := h; _successors := []; _dependents := [];
     _num_dependents := 0; _parent := this; _tree_size := 1;
     _group := nullptr; _topology := nullptr |}.

Definition set_successors (l : list N) (n : Node) : Node :=
  {| _name := _name n; _handle := _handle n; _successors := l;
     _dependents := _dependents n; _num_dependents := _num_dependents n;
     _parent := _parent n; _tree_size := _tree_size n;
     _group := _group n; _topology := _topology n |}.

Definition set_dependents (l : list N) (n : Node) : Node :=
  {| _name := _name n; _handle := _handle n; _successors := _successors n;
     _dependents := l; _num_dependents := _num_dependents n;
     _parent := _parent n; _tree_size := _tree_size n;
     _group := _group n; _topology := _topology n |}.

Definition set_num_dependents (c : Z) (n : Node) : Node :=
  {| _name := _name n; _handle := _handle n; _successors := _successors n;
     _dependents := _dependents n; _num_dependents := c;
     _parent := _parent n; _tree_size := _tree_size n;
     _group := _group n; _topology := _topology n |}.

Definition set_parent (p : N) (n : Node) : Node :=
  {| _name := _name n; _handle := _handle n; _successors := _successors n;
     _dependents := _dependents n; _num_dependents := _num_dependents n;
     _parent := p; _tree_size := _tree_size n;
     _group := _group n; _topology := _topology n |}.

Definition set_tree_size (s : Z) (n : Node) : Node :=
  {| _name := _name n; _handle := _handle n; _successors := _successors n;
     _dependents := _dependents n; _num_dependents := _num_dependents n;
     _parent := _parent n; _tree_size := s;
     _group := _group n; _topology := _topology n |}.

(** The heap of nodes is a [gmap N Node].  Dereference of a [Node*]: *)
Definition load (h : gmap N Node) (p : N) : outcome Node :=
  match h !! p with
  | Some n => Ret n
  | None => BadPtr
  end.

(** A population of freshly constructed nodes at the given addresses, all
    with the same payload. *)
Definition fresh (hd : Handle) (ps : list N) : gmap N Node :=
  foldr (fun p h => <[p := new_Node p hd]> h) ∅ ps.

(** ** Classification predicates *)

Definition is_host (n : Node) : bool := index (_handle n) =? HOST_IDX.
Definition is_pull (n : Node) : bool := index (_handle n) =? PULL_IDX.
Definition is_push (n : Node) : bool := index (_handle n) =? PUSH_IDX.
Definition is_transfer (n : Node) : bool := index (_handle n) =? TRANSFER_IDX.
Definition is_kernel (n : Node) : bool := index (_handle n) =? KERNEL_IDX.

Definition is_device (n : Node) : bool :=
  is_push n || is_pull n || is_kernel n || is_transfer n.

Definition num_successors (n : Node) : nat := length (_successors n).
Definition num_dependents (n : Node) : nat := length (_dependents n).

(** ** Dependency edges: [Node::_precede]

    Three statements, each reading the heap the previous one left (so that
    [this == rhs] is handled as the code handles it). *)
Definition _precede (this rhs : N) (h : gmap N Node) : outcome (gmap N Node) :=
  (* _successors.push_back(rhs); *)
  let! n := load h this in
  let h1 := <[this := set_successors (_successors n ++ [rhs]) n]> h in
  (* rhs->_dependents.push_back(this); *)
  let! r := load h1 rhs in
  let h2 := <[rhs := set_dependents (_dependents r ++ [this]) r]> h1 in
  (* rhs->_num_dependents.fetch_add(1, std::memory_order_relaxed); *)
  let! r' := load h2 rhs in
  Ret (<[rhs := set_num_dependents (wrap_int (_num_dependents r' + 1)) r']> h2).

(** A sequence of [precede(U, V)] calls, in order. *)
Fixpoint precede_all (calls : list (N * N)) (h : gmap N Node) : outcome (gmap N Node) :=
  match calls with
  | [] => Ret h
  | (u, v) :: rest => let! h' := _precede u v h in precede_all rest h'
  end.

(** ** Union-find: [Node::_root]

    The loop of [_root], with [ptr] the local variable and [_parent] the
    member of [this], re-read from the heap at every test:
<<
      auto ptr = this;
      while(ptr != _parent) { _parent = _parent->_parent; ptr = _parent; }
      return ptr;
>>
*)
Fixpoint _root_loop (fuel : nat) (this ptr : N) (h : gmap N Node)
  : outcome (N * gmap N Node) :=
  match fuel with
  | O => NoFuel
  | S fuel' =>
      let! n := load h this in
      if decide (ptr = _parent n) then Ret (ptr, h)
      else
        let! p := load h (_parent n) in
        let h' := <[this := set_parent (_parent p) n]> h in
        let! n' := load h' this in
        _root_loop fuel' this (_parent n') h'
  end.

(** Two tests of the loop condition always suffice (lemma
    [_root_loop_fuel] below), so [_root] never runs out of fuel. *)
Definition _root (this : N) (h : gmap N Node) : outcome (N * gmap N Node) :=
  _root_loop 2 this this h.

(** ** Union-find: [Node::_union]

    [ndebug] says whether the translation unit was compiled with [NDEBUG],
    in which case [assert] expands to nothing. *)

(** [r->_tree_size += k] on a plain [int]. *)
Definition add_tree_size (r : N) (k : Z) (h : gmap N Node) : outcome (gmap N Node) :=
  let! n := load h r in
  let s := _tree_size n + k in
  if (INT_MIN <=? s) && (s <=? INT_MAX) then Ret (<[r := set_tree_size s n]> h)
  else Overflow.

(** [r->_parent = p]. *)
Definition store_parent (r p : N) (h : gmap N Node) : outcome (gmap N Node) :=
  let! n := load h r in
  Ret (<[r := set_parent p n]> h).

Definition _union (ndebug : bool) (this y : N) (h : gmap N Node)
  : outcome (gmap N Node) :=
  let! nx := load h this in
  let! ny := load h y in
  if decide (_parent nx = _parent ny) then Ret h
  else
    let! (xroot, h1) := _root this h in
    let! (yroot, h2) := _root y h1 in
    if negb ndebug && bool_decide (xroot = yroot) then AssertFail
    else
      let! rx := load h2 xroot in
      let! ry := load h2 yroot in
      let xrank := _tree_size rx in
      let yrank := _tree_size ry in
      if xrank <? yrank then
        let! h3 := store_parent xroot yroot h2 in
        add_tree_size yroot xrank h3
      else
        let! h3 := store_parent yroot xroot h2 in
        add_tree_size xroot yrank h3.

(** A sequence of [union(A, B)] calls, in order. *)
Fixpoint union_all (ndebug : bool) (calls : list (N * N)) (h : gmap N Node)
  : outcome (gmap N Node) :=
  match calls with
  | [] => Ret h
  | (a, b) :: rest => let! h' := _union ndebug a b h in union_all ndebug rest h'
  end.

(** Reading the union-find fields of a node of the heap. *)
Definition parent_of (h : gmap N Node) (p : N) : option N := _parent <$> h !! p.
Definition tree_size_of (h : gmap N Node) (p : N) : option Z := _tree_size <$> h !! p.

(** The true root of [x]: follow parent links until a node that is its own
    parent ([fuel] bounds the length of the chain). *)
Fixpoint true_root (fuel : nat) (h : gmap N Node) (x : N) : option N :=
  match fuel with
  | O => None
  | S fuel' =>
      match h !! x with
      | None => None
      | Some n => if decide (_parent n = x) then Some x
                  else true_root fuel' h (_parent n)
      end
  end.

Definition find_true (h : gmap N Node) (x : N) : option N :=
  true_root (size h) h x.

(** [A] and [B] were connected, directly or transitively, by the [union]
    calls of a sequence: the equivalence closure of "some call named the
    pair". *)
Definition linked (calls : list (N * N)) (a b : N) : Prop := (a, b) ∈ calls.
Definition connected (calls : list (N * N)) : relation N := rtsc (linked calls).

(** How many of a list of booleans are true. *)
Definition count_true (bs : list bool) : nat := length (filter (fun b => b = true) bs).

(** ** Two reachable forests *)

(** Eight fresh nodes at addresses 0..7 and seven [union] calls; none of the
    calls trips the assertion.  The forest they build has the chain
    7 -> 6 -> 4 -> 0. *)
Definition pop8 : gmap N Node := fresh (Host 0) [0; 1; 2; 3; 4; 5; 6; 7]%N.
Definition calls8 : list (N * N) :=
  [(0, 1); (2, 3); (0, 2); (4, 5); (6, 7); (4, 6); (0, 4)]%N.

(** Four fresh nodes and three calls: the chain 3 -> 2 -> 0, and 1 -> 0. *)
Definition pop4 : gmap N Node := fresh (Host 0) [0; 1; 2; 3]%N.
Definition calls4 : list (N * N) := [(0, 1); (2, 3); (0, 2)]%N.

(** ** Edge bookkeeping, node by node *)

(** Every node of the heap is as its constructor left it for the edge
    fields: no successor, no dependent, counter 0. *)
Definition no_edges (h : gmap N Node) : Prop :=
  forall p n, h !! p = Some n ->
    _successors n = [] /\ _dependents n = [] /\ _num_dependents n = 0.

(** The nodes of the first end-to-end scenario: A (Host) at address 0,
    B (Pull, device 0) at address 1, C (Kernel, sources [B], device 0) at
    address 2. *)
Definition scenario1_heap : gmap N Node :=
  <[0%N := new_Node 0%N (Host 0)]>
    (<[1%N := new_Node 1%N (Pull 0 0 nullptr 0%N)]>
       (<[2%N := new_Node 2%N (Kernel 0 0 [1%N])]> ∅)).

(** The node at address [x] after a call [precede(u, v)], from the node [n]
    that was there before. *)
Definition after_precede (u v x : N) (n : Node) : Node :=
  {| _name := _name n; _handle := _handle n;
     _successors := _successors n ++ (if decide (x = u) then [v] else []);
     _dependents := _dependents n ++ (if decide (x = v) then [u] else []);
     _num_dependents := if decide (x = v) then wrap_int (_num_dependents n + 1)
                        else _num_dependents n;
     _parent := _parent n; _tree_size := _tree_size n;
     _group := _group n; _topology := _topology n |}.

(** The fields of a node that neither kind of edge bookkeeping touches. *)
Definition same_static_fields (n n' : Node) : Prop :=
  _name n' = _name n /\ _handle n' = _handle n /\
  _parent n' = _parent n /\ _tree_size n' = _tree_size n /\
  _group n' = _group n /\ _topology n' = _topology n.

(** ** Sequences of [precede] calls *)

(** What a call sequence appends, in call order, to the successor list and
    to the dependent list of the node at [x]. *)
Definition targets_of (x : N) (calls : list (N * N)) : list N :=
  snd <$> filter (fun c => fst c = x) calls.
Definition sources_of (x : N) (calls : list (N * N)) : list N :=
  fst <$> filter (fun c => snd c = x) calls.

(** Number of occurrences of an address in an adjacency list, number of
    calls [precede(u, v)] in a sequence, and number of calls that name [v]
    as target. *)
Definition occurrences (x : N) (l : list N) : nat := length (filter (fun y => y = x) l).
Definition calls_of (u v : N) (calls : list (N * N)) : nat :=
  length (filter (fun c => c = (u, v)) calls).
Definition calls_to (v : N) (calls : list (N * N)) : nat :=
  length (filter (fun c => snd c = v) calls).

Definition after_calls (calls : list (N * N)) (x : N) (n : Node) : Node :=
  foldl (fun n c => after_precede (fst c) (snd c) x n) n calls.

(** [k] increments of a 32-bit counter. *)
Definition bump (k : nat) (c : Z) : Z := Nat.iter k (fun c => wrap_int (c + 1)) c.

(** ** Graphviz rendering: [Node::dump] *)

(** The double quote and the newline, by character code. *)
Definition DQ : string := String "034"%char EmptyString.
Definition NL : string := String "010"%char EmptyString.

Section Dump.

(** How the stream prints a pointer ([operator<<(const void* )]); the
    format is the implementation's. *)
Variable show_ptr : N -> string.

(** An output stream is the text written to it so far; every insertion
    appends. *)
Definition put (os : string) (s : string) : string := os +:+ s.
Definition put_ptr (os : string) (p : N) : string := os +:+ show_ptr p.

Local Infix "<<" := put (at level 50, left associativity).
Local Infix "<<p" := put_ptr (at level 50, left associativity).

(** The loop over [_successors]. *)
Definition dump_successors (this : N) (succs : list N) (os : string) : string :=
  foldl (fun os s => os << "p" <<p this << " -> " << "p" <<p s << (";" +:+ NL))
        os succs.

Definition dump_os (this : N) (n : Node) (os : string) : string :=
  (* os << 'p' << this << [label= and an opening quote *)
  let os := os << "p" <<p this << ("[label=" +:+ DQ) in
  let os :=
    if decide (_name n = "") then os << "p" <<p this << DQ
    else os << _name n << DQ in
  (* switch(_handle.index()) *)
  let os :=
    match index (_handle n) with
    | 1 => os << (" style=filled fillcolor=" +:+ DQ +:+ "cyan" +:+ DQ)
    | 2 => os << (" style=filled fillcolor=" +:+ DQ +:+ "springgreen" +:+ DQ)
    | 3 => os << (" style=filled fillcolor=" +:+ DQ +:+ "black" +:+ DQ
                    +:+ " fontcolor=" +:+ DQ +:+ "white" +:+ DQ)
    | 4 => os << (" style=filled fillcolor=" +:+ DQ +:+ "coral" +:+ DQ)
    | _ => os
    end in
  let os := os << ("];" +:+ NL) in
  (* for(const auto s : _successors) *)
  dump_successors this (_successors n) os.

(** [std::string Node::dump() const]: the text written to a new stream. *)
Definition dump (this : N) (n : Node) : string := dump_os this n "".

(** *** The format as the specification words it *)

Inductive kind : Type := KHost | KPull | KPush | KTransfer | KKernel.

Definition kind_of (h : Handle) : kind :=
  match h with
  | Host _ => KHost
  | Pull _ _ _ _ => KPull
  | Push _ _ => KPush
  | Transfer _ _ _ => KTransfer
  | Kernel _ _ _ => KKernel
  end.

Definition quoted (s : string) : string := DQ +:+ s +:+ DQ.

(** [p<address>] *)
Definition node_id (p : N) : string := "p" +:+ show_ptr p.

(** The node's name when it has one, [p<address>] otherwise. *)
Definition label (this : N) (n : Node) : string :=
  match _name n with
  | EmptyString => node_id this
  | name => name
  end.

Definition style (k : kind) : string :=
  match k with
  | KPull => " style=filled fillcolor=" +:+ quoted "cyan"
  | KPush => " style=filled fillcolor=" +:+ quoted "springgreen"
  | KKernel => " style=filled fillcolor=" +:+ quoted "black"
                 +:+ " fontcolor=" +:+ quoted "white"
  | KTransfer => " style=filled fillcolor=" +:+ quoted "coral"
  | KHost => ""
  end.

Definition declaration_line (this : N) (n : Node) : string :=
  node_id this +:+ "[label=" +:+ quoted (label this n)
    +:+ style (kind_of (_handle n)) +:+ "];" +:+ NL.

Definition edge_line (this s : N) : string :=
  node_id this +:+ " -> " +:+ node_id s +:+ ";" +:+ NL.

Definition dump_spec (this : N) (n : Node) : string :=
  declaration_line this n
    +:+ String.concat "" (edge_line this <$> _successors n).

End Dump.

(** The number of newline characters of a text, that is, of lines it ends. *)
Fixpoint count_lines (s : string) : nat :=
  match s with
  | EmptyString => 0
  | String c s' => (if decide (c = "010"%char) then 1 else 0) + count_lines s'
  end.

(** A two-node graph for the rendering scenario: a Host node at address 16
    and a Kernel node at address 32, joined by [precede]; and a pointer
    format for it. *)
Definition host_kernel_heap : outcome (gmap N Node) :=
  _precede 16%N 32%N
    (<[16%N := new_Node 16%N (Host 0)]>
       (<[32%N := new_Node 32%N (Kernel 0 (-1) [])]> ∅)).

Definition show_ptr_demo (p : N) : string :=
  if (p =? 16)%N then "0x10" else "0x20".

(** ** Device groups *)

(** [struct DeviceGroup]: two atomics, [device_id {-1}] and [num_tasks {0}]. *)
Record DeviceGroup : Type := mkDeviceGroup {
  device_id : Z;
  num_tasks : Z
}.

Definition new_DeviceGroup : DeviceGroup := {| device_id := -1; num_tasks := 0 |}.

(** The value of [device_id] that means no device has been assigned. *)
Definition UNASSIGNED : Z := -1.

(** Modelled from the spec: the operation [claim(group, proposedDevice)].
    graph.hpp declares the [DeviceGroup] struct only; the code that claims a
    device for a group is not in it.  The specification gives [claim] as one
    atomic compare-and-swap on [device_id]: if the id is still unassigned,
    install the proposal and return it; otherwise leave the group as it is
    and return the installed id. *)
Definition claim (g : DeviceGroup) (proposedDevice : Z) : DeviceGroup * Z :=
  if decide (device_id g = UNASSIGNED)
  then ({| device_id := proposedDevice; num_tasks := num_tasks g |}, proposedDevice)
  else (g, device_id g).

(** Concurrent callers of [claim] on one group.  A caller is either about to
    call with its proposal or has returned a device id; since [claim] is one
    atomic operation, a step of the system is one pending caller performing
    it, and an interleaving is any sequence of such steps. *)
Inductive caller : Type :=
  | Calling (proposedDevice : Z)
  | Returned (device : Z).

Definition claim_state : Type := DeviceGroup * list caller.

Inductive claim_step : relation claim_state :=
  | claim_step_at (g g' : DeviceGroup) (cs : list caller) (i : nat) (d r : Z) :
      cs !! i = Some (Calling d) ->
      claim g d = (g', r) ->
      claim_step (g, cs) (g', <[i := Returned r]> cs).

Definition claim_init (ds : list Z) : claim_state := (new_DeviceGroup, Calling <$> ds).

Definition all_returned (cs : list caller) : Prop :=
  forall i c, cs !! i = Some c -> exists r, c = Returned r.

(** The invariant of every interleaving: an assigned id is one of the
    proposals; a caller that has not run yet still holds its own proposal;
    a caller that has returned holds the id now installed in the group. *)
Definition claim_inv (ds : list Z) (s : claim_state) : Prop :=
  length (snd s) = length ds /\
  (device_id (fst s) <> UNASSIGNED -> device_id (fst s) ∈ ds) /\
  forall i c, snd s !! i = Some c ->
    match c with
    | Calling d => ds !! i = Some d
    | Returned r => r = device_id (fst s) /\ device_id (fst s) <> UNASSIGNED
    end.

(** The number of callers that have not returned. *)
Fixpoint pending (cs : list caller) : nat :=
  match cs with
  | [] => 0
  | Calling _ :: cs' => S (pending cs')
  | Returned _ :: cs' => pending cs'
  end.

(** ** Typed payload access

    [nstd::get<T>(_handle)] returns the payload when [T] is the active
    alternative and throws [bad_variant_access] otherwise. *)
Inductive access (A : Type) : Type :=
  | Got (a : A)
  | BadVariantAccess.

Arguments Got {A} a.
Arguments BadVariantAccess {A}.

Definition succeeds {A} (r : access A) : bool :=
  match r with
  | Got _ => true
  | BadVariantAccess => false
  end.

(** Each accessor returns the members of its payload struct, in
    declaration order. *)
Definition _host_handle (n : Node) : access N :=
  match _handle n with
  | Host work => Got work
  | _ => BadVariantAccess
  end.

Definition _pull_handle (n : Node) : access (N * Z * N * N) :=
  match _handle n with
  | Pull work device d_data d_size => Got (work, device, d_data, d_size)
  | _ => BadVariantAccess
  end.

Definition _push_handle (n : Node) : access (N * N) :=
  match _handle n with
  | Push work source => Got (work, source)
  | _ => BadVariantAccess
  end.

Definition _transfer_handle (n : Node) : access (N * N * N) :=
  match _handle n with
  | Transfer work source target => Got (work, source, target)
  | _ => BadVariantAccess
  end.

Definition _kernel_handle (n : Node) : access (N * Z * list N) :=
  match _handle n with
  | Kernel work device sources => Got (work, device, sources)
  | _ => BadVariantAccess
  end.

(** ** Invariants of the edge bookkeeping *)

(** The atomic counter of every node is the size of its dependent list, as
    a 32-bit [int]. *)
Definition counter_tracks_dependents (h : gmap N Node) : Prop :=
  forall p n, h !! p = Some n ->
    _num_dependents n = wrap_int (Z.of_nat (num_dependents n)).

(** The two adjacency lists mirror each other: [v] is in [u]'s successors as
    often as [u] is in [v]'s dependents. *)
Definition edges_mirrored (h : gmap N Node) : Prop :=
  forall u v nu nv, h !! u = Some nu -> h !! v = Some nv ->
    occurrences v (_successors nu) = occurrences u (_dependents nv).

(** Every call of the sequence names two nodes of the heap. *)
Definition calls_in_heap (calls : list (N * N)) (h : gmap N Node) : Prop :=
  forall c, c ∈ calls -> is_Some (h !! fst c) /\ is_Some (h !! snd c).

(** ** Invariants of the union-find forest *)

(** Every parent pointer of the heap points to a node of the heap. *)
Definition parents_closed (h : gmap N Node) : Prop :=
  forall x n, h !! x = Some n -> is_Some (h !! _parent n).

(** The fields of a node that the union-find operations do not touch. *)
Definition same_graph_fields (n n' : Node) : Prop :=
  _name n' = _name n /\ _handle n' = _handle n /\
  _successors n' = _successors n /\ _dependents n' = _dependents n /\
  _num_dependents n' = _num_dependents n /\
  _group n' = _group n /\ _topology n' = _topology n.

(** Two heaps hold nodes at the same addresses, and the nodes differ at
    most in their parent and tree size. *)
Definition union_find_only (h h' : gmap N Node) : Prop :=
  forall p,
    match h !! p, h' !! p with
    | Some n, Some n' => same_graph_fields n n'
    | None, None => True
    | _, _ => False
    end.

(** [k + 1] calls of [_root] on the same node, one after the other; the
    result is that of the last call. *)
Fixpoint root_repeat (k : nat) (x : N) (h : gmap N Node) : outcome (N * gmap N Node) :=
  match k with
  | O => _root x h
  | S k' => let! (_, h1) := _root x h in root_repeat k' x h1
  end.

(** Every node of the heap is related to its parent by [R]. *)
Definition parents_related (R : relation N) (h : gmap N Node) : Prop :=
  forall z n, h !! z = Some n -> R z (_parent n).

(** Every node of the heap is a singleton set: its own parent. *)
Definition all_singletons (h : gmap N Node) : Prop :=
  forall z n, h !! z = Some n -> _parent n = z.

(** * Properties *)

(** ** Classification predicates *)

(** C7. For every node exactly one of [is_host], [is_pull], [is_push],
    [is_transfer], [is_kernel] is true; [is_device] is the negation of
    [is_host], and it is true exactly for the payload kinds Pull, Push,
    Transfer and Kernel. *)
Theorem classification_exclusive_exhaustive (n : Node) :
  count_true [is_host n; is_pull n; is_push n; is_transfer n; is_kernel n] = 1%nat
  /\ is_device n = negb (is_host n)
  /\ (is_device n = true <->
      match _handle n with
      | Pull _ _ _ _ | Push _ _ | Transfer _ _ _ | Kernel _ _ _ => True
      | Host _ => False
      end).
Proof.
  unfold is_device, is_host, is_pull, is_push, is_transfer, is_kernel.
  destruct (_handle n); cbn; intuition congruence.
Qed.

(** ** Facts about [_root] *)

Lemma load_Some (h : gmap N Node) p n : h !! p = Some n -> load h p = Ret n.
Proof. unfold load. now intros ->. Qed.

Lemma load_Ret (h : gmap N Node) p n : load h p = Ret n -> h !! p = Some n.
Proof. unfold load. destruct (h !! p); congruence. Qed.

(** The loop body runs at most once: after [_parent = _parent->_parent;
    ptr = _parent] the test [ptr != _parent] is false.  So any fuel of at
    least two gives the result of fuel two, whatever the heap. *)
Lemma _root_loop_fuel fuel this ptr (h : gmap N Node) :
  _root_loop (S (S fuel)) this ptr h = _root_loop 2 this ptr h.
Proof.
  cbn [_root_loop]. unfold load.
  destruct (h !! this) as [n|]; cbn [obind]; [|reflexivity].
  destruct (decide (ptr = _parent n)); [reflexivity|].
  destruct (h !! _parent n) as [p|]; cbn [obind]; [|reflexivity].
  rewrite !lookup_insert_eq. cbn.
  destruct (decide (_parent p = _parent p)); [reflexivity|congruence].
Qed.

(** [_root] on a node that is its own parent returns it and writes nothing. *)
Lemma _root_self (h : gmap N Node) x n :
  h !! x = Some n -> _parent n = x -> _root x h = Ret (x, h).
Proof.
  intros Hx Hp. unfold _root. cbn [_root_loop]. rewrite (load_Some _ _ _ Hx).
  cbn [obind]. destruct (decide (x = _parent n)); [reflexivity|congruence].
Qed.

(** [_root] on any other node returns the parent of its parent, and stores
    it as the node's new parent: one hop of compression and no more. *)
Lemma _root_grandparent (h : gmap N Node) x n p :
  h !! x = Some n -> _parent n <> x -> h !! _parent n = Some p ->
  _root x h = Ret (_parent p, <[x := set_parent (_parent p) n]> h).
Proof.
  intros Hx Hne Hp. unfold _root. cbn [_root_loop].
  rewrite (load_Some _ _ _ Hx). cbn [obind].
  destruct (decide (x = _parent n)); [congruence|].
  rewrite (load_Some _ _ _ Hp). cbn [obind].
  unfold load. rewrite !lookup_insert_eq. cbn.
  destruct (decide (_parent p = _parent p)); [reflexivity|congruence].
Qed.

(** Whenever [_root] returns, it is in one of these two ways. *)
Lemma _root_Ret (h : gmap N Node) x r h1 :
  _root x h = Ret (r, h1) ->
  exists n, h !! x = Some n /\
    ((_parent n = x /\ r = x /\ h1 = h) \/
     (_parent n <> x /\ exists p, h !! _parent n = Some p /\ r = _parent p /\
        h1 = <[x := set_parent (_parent p) n]> h)).
Proof.
  intros H. destruct (h !! x) as [n|] eqn:Hx.
  - exists n. split; [reflexivity|].
    destruct (decide (_parent n = x)) as [E|E].
    + left. rewrite (_root_self _ _ _ Hx E) in H. injection H as <- <-. auto.
    + right. split; [exact E|].
      destruct (h !! _parent n) as [p|] eqn:Hp.
      * exists p. rewrite (_root_grandparent _ _ _ _ Hx E Hp) in H.
        injection H as <- <-. auto.
      * unfold _root in H. cbn [_root_loop] in H.
        rewrite (load_Some _ _ _ Hx) in H. cbn [obind] in H.
        destruct (decide (x = _parent n)); [congruence|].
        unfold load in H. rewrite Hp in H. discriminate.
  - unfold _root in H. cbn [_root_loop] in H. unfold load in H. rewrite Hx in H.
    discriminate.
Qed.

(** Three calls in a row, [r = _root(x)], [r' = _root(r)], [r'' = _root(x)],
    always end with [r'' = r']: the first call moved [x] one hop up, so the
    third call reads the parent that the second call has just compressed.
    The expression [find(find(X)) == find(X)], when its left operand is
    evaluated first, is therefore true on every heap, whether or not [_root]
    finds the root. *)
Lemma root_of_root_then_root (h : gmap N Node) x r h1 r' h2 r'' h3 :
  _root x h = Ret (r, h1) -> _root r h1 = Ret (r', h2) -> _root x h2 = Ret (r'', h3) ->
  r'' = r'.
Proof.
  intros H1 H2 H3.
  apply _root_Ret in H1 as (n & Hx & [(Pn & -> & ->)|(Pn & p & Hp & -> & ->)]).
  - rewrite (_root_self _ _ _ Hx Pn) in H2. injection H2 as <- <-.
    rewrite (_root_self _ _ _ Hx Pn) in H3. now injection H3 as <- <-.
  - apply _root_Ret in H2 as (m & Hm & [(Pm & -> & ->)|(Pm & q & Hq & -> & ->)]).
    + apply _root_Ret in H3 as (n' & Hx' & [(Pn' & -> & ->)|(Pn' & p' & Hp' & -> & ->)]);
        rewrite lookup_insert_eq in Hx'; injection Hx' as <-; cbn in *.
      * congruence.
      * rewrite Hm in Hp'. injection Hp' as <-. congruence.
    + destruct (decide (_parent p = x)) as [E|E].
      { rewrite E in Hm. rewrite lookup_insert_eq in Hm. injection Hm as <-.
        cbn in Pm. congruence. }
      apply _root_Ret in H3 as (n' & Hx' & [(Pn' & -> & ->)|(Pn' & p' & Hp' & -> & ->)]);
        rewrite lookup_insert_ne in Hx' by assumption;
        rewrite lookup_insert_eq in Hx'; injection Hx' as <-; cbn in *.
      * congruence.
      * rewrite lookup_insert_eq in Hp'. now injection Hp' as <-.
Qed.

(** [_root] always terminates: its loop never exhausts the fuel. *)
Lemma _root_terminates (h : gmap N Node) x : _root x h <> NoFuel.
Proof.
  unfold _root. cbn [_root_loop]. unfold load.
  destruct (h !! x) as [n|] eqn:Hx; cbn [obind]; [|discriminate].
  destruct (decide (x = _parent n)); [discriminate|].
  destruct (h !! _parent n) as [p|]; cbn [obind]; [|discriminate].
  rewrite !lookup_insert_eq. cbn.
  destruct (decide (_parent p = _parent p)); [discriminate|congruence].
Qed.

(** ** The two forests *)

Lemma calls8_forest :
  exists h, union_all false calls8 pop8 = Ret h /\
    forall x, parent_of h x =
      ({[ 0 := 0; 1 := 0; 2 := 0; 3 := 2; 4 := 0; 5 := 4; 6 := 4; 7 := 6 ]}%N
         : gmap N N) !! x.
Proof.
  eexists. split; [vm_compute; reflexivity|].
  intros x. unfold parent_of. rewrite <- lookup_fmap. f_equal.
Qed.

Lemma calls4_forest :
  exists h, union_all false calls4 pop4 = Ret h /\
    forall x, parent_of h x =
      ({[ 0 := 0; 1 := 0; 2 := 0; 3 := 2 ]}%N : gmap N N) !! x.
Proof.
  eexists. split; [vm_compute; reflexivity|].
  intros x. unfold parent_of. rewrite <- lookup_fmap. f_equal.
Qed.

(** ** Union-find: what [_root] and [_union] do on reachable forests *)

(** C1. In the forest built by [calls8], whose chain 7 -> 6 -> 4 -> 0 ends
    in the root 0, [_root] called on node 7 returns node 4, and node 4 is
    not its own parent (its parent is 0): [_root] returns an intermediate
    ancestor and not the true root. *)
Theorem root_returns_intermediate_ancestor :
  exists h r h',
    union_all false calls8 pop8 = Ret h /\
    find_true h 7%N = Some 0%N /\
    _root 7%N h = Ret (r, h') /\
    r = 4%N /\
    parent_of h' r = Some 0%N /\
    find_true h' 7%N = Some 0%N.
Proof.
  do 3 eexists.
  split; [vm_compute; reflexivity|].
  split; [vm_compute; reflexivity|].
  split; [vm_compute; reflexivity|].
  repeat split; vm_compute; reflexivity.
Qed.

Lemma calls8_connected_7_0 : connected calls8 7%N 0%N.
Proof.
  assert (Hin : forall a b, In (a, b) calls8 -> sc (linked calls8) b a).
  { intros a b H. right. unfold linked. now apply list_elem_of_In. }
  unfold connected.
  apply (rtc_l _ _ 6%N); [apply Hin; cbn; tauto|].
  apply (rtc_l _ _ 4%N); [apply Hin; cbn; tauto|].
  apply (rtc_l _ _ 0%N); [apply Hin; cbn; tauto|].
  apply rtc_refl.
Qed.

(** C2. After the calls of [calls8], nodes 7 and 0 are connected (by the
    calls (6,7), (4,6) and (0,4)), and yet [_root] of 7 and [_root] of 0
    differ, in whichever order the two are evaluated. *)
Theorem connected_nodes_with_different_roots :
  exists h,
    union_all false calls8 pop8 = Ret h /\
    connected calls8 7%N 0%N /\
    (exists r7 h1 r0 h2,
        _root 7%N h = Ret (r7, h1) /\ _root 0%N h1 = Ret (r0, h2) /\ r7 <> r0) /\
    (exists r0 h1 r7 h2,
        _root 0%N h = Ret (r0, h1) /\ _root 7%N h1 = Ret (r7, h2) /\ r7 <> r0).
Proof.
  eexists.
  split; [vm_compute; reflexivity|].
  split; [apply calls8_connected_7_0|].
  split.
  - do 4 eexists. split; [vm_compute; reflexivity|].
    split; [vm_compute; reflexivity|]. discriminate.
  - do 4 eexists. split; [vm_compute; reflexivity|].
    split; [vm_compute; reflexivity|]. discriminate.
Qed.

(** C3. In the forest built by [calls8], [_root] of 7 is 4 and [_root] of 4
    is 0: the result of [_root] is not a fixed point of [_root], whether the
    second call runs on the forest as the first call found it or as it left
    it; and a second [_root] of 7 returns 0, not 4 again. *)
Theorem root_not_idempotent :
  exists h r h1,
    union_all false calls8 pop8 = Ret h /\
    _root 7%N h = Ret (r, h1) /\
    (exists r' h2, _root r h = Ret (r', h2) /\ r' <> r) /\
    (exists r' h2, _root r h1 = Ret (r', h2) /\ r' <> r) /\
    (exists r' h2, _root 7%N h1 = Ret (r', h2) /\ r' <> r).
Proof.
  do 3 eexists.
  split; [vm_compute; reflexivity|].
  split; [vm_compute; reflexivity|].
  repeat split; do 2 eexists; (split; [vm_compute; reflexivity|discriminate]).
Qed.

(** C4. In the forest built by [calls4], nodes 0 and 3 are in the same tree
    (the true root of both is 0, and [_root] returns 0 for both), but their
    parents differ (0 and 2), so [_union] does not return early: with
    assertions enabled [assert(xroot != yroot)] fails, and with [NDEBUG] the
    call returns after changing the size counter of root 0 from 4 to 8. *)
Theorem union_of_connected_nodes_asserts :
  exists h,
    union_all false calls4 pop4 = Ret h /\
    find_true h 0%N = Some 0%N /\ find_true h 3%N = Some 0%N /\
    (exists h1 h2, _root 0%N h = Ret (0%N, h1) /\ _root 3%N h1 = Ret (0%N, h2)) /\
    parent_of h 0%N = Some 0%N /\ parent_of h 3%N = Some 2%N /\
    _union false 0%N 3%N h = AssertFail /\
    exists h',
      _union true 0%N 3%N h = Ret h' /\
      tree_size_of h 0%N = Some 4 /\ tree_size_of h' 0%N = Some 8.
Proof.
  eexists.
  split; [vm_compute; reflexivity|].
  split; [vm_compute; reflexivity|].
  split; [vm_compute; reflexivity|].
  split; [do 2 eexists; split; vm_compute; reflexivity|].
  split; [vm_compute; reflexivity|].
  split; [vm_compute; reflexivity|].
  split; [vm_compute; reflexivity|].
  eexists. split; [vm_compute; reflexivity|].
  split; vm_compute; reflexivity.
Qed.

(** ** Union of three singletons *)

Lemma parent_of_Some (h : gmap N Node) x p :
  parent_of h x = Some p -> exists n, h !! x = Some n /\ _parent n = p.
Proof.
  unfold parent_of. destruct (h !! x) as [n|]; cbn; [|discriminate].
  intros [= <-]. now exists n.
Qed.

Lemma tree_size_of_Some (h : gmap N Node) x n s :
  h !! x = Some n -> tree_size_of h x = Some s -> _tree_size n = s.
Proof. unfold tree_size_of. intros ->. cbn. congruence. Qed.

(** C8. For three distinct nodes [b], [c], [d] that are singletons (each its
    own parent, size counter 1) in any heap, [union(b, c)] and then
    [union(c, d)] return, after which [_root] of [b] and [_root] of [d] are
    the same node, that node is its own parent, and its size counter is 3. *)
Theorem union_chain_of_three (ndebug : bool) (h : gmap N Node) (b c d : N) :
  b <> c -> c <> d -> b <> d ->
  (forall x, x ∈ [b; c; d] -> parent_of h x = Some x /\ tree_size_of h x = Some 1) ->
  exists h' rb h1 rd h2,
    union_all ndebug [(b, c); (c, d)] h = Ret h' /\
    _root b h' = Ret (rb, h1) /\
    _root d h1 = Ret (rd, h2) /\
    rb = rd /\
    parent_of h2 rb = Some rb /\
    tree_size_of h2 rb = Some 3.
Proof.
  intros Hbc Hcd Hbd Hs.
  assert (Hb' : b ∈ [b; c; d]) by (apply list_elem_of_In; cbn; tauto).
  assert (Hc' : c ∈ [b; c; d]) by (apply list_elem_of_In; cbn; tauto).
  assert (Hd' : d ∈ [b; c; d]) by (apply list_elem_of_In; cbn; tauto).
  destruct (Hs b Hb') as [Pb Sb].
  destruct (Hs c Hc') as [Pc Sc].
  destruct (Hs d Hd') as [Pd Sd].
  apply parent_of_Some in Pb as (nb & Hb & Pb).
  apply parent_of_Some in Pc as (nc & Hc & Pc).
  apply parent_of_Some in Pd as (nd & Hd & Pd).
  pose proof (tree_size_of_Some _ _ _ _ Hb Sb) as Tb.
  pose proof (tree_size_of_Some _ _ _ _ Hc Sc) as Tc.
  pose proof (tree_size_of_Some _ _ _ _ Hd Sd) as Td.
  (* union(b, c) *)
  set (hA := <[b := set_tree_size 2 nb]> (<[c := set_parent b nc]> h)).
  assert (U1 : _union ndebug b c h = Ret hA).
  { unfold _union. rewrite (load_Some _ _ _ Hb), (load_Some _ _ _ Hc). cbn [obind].
    destruct (decide (_parent nb = _parent nc)); [congruence|].
    rewrite (_root_self _ _ _ Hb Pb). cbn [obind].
    rewrite (_root_self _ _ _ Hc Pc). cbn [obind].
    rewrite bool_decide_eq_false_2 by assumption. rewrite andb_false_r.
    rewrite (load_Some _ _ _ Hb), (load_Some _ _ _ Hc). cbn [obind].
    rewrite Tb, Tc. change (1 <? 1) with false. cbv iota.
    unfold store_parent. rewrite (load_Some _ _ _ Hc). cbn [obind].
    unfold add_tree_size. rewrite (load_Some _ b nb) by (now rewrite lookup_insert_ne).
    cbn [obind]. rewrite Tb. reflexivity. }
  assert (HAb : hA !! b = Some (set_tree_size 2 nb)) by apply lookup_insert_eq.
  assert (HAc : hA !! c = Some (set_parent b nc)).
  { unfold hA. rewrite lookup_insert_ne by assumption. apply lookup_insert_eq. }
  assert (HAd : hA !! d = Some nd).
  { unfold hA. rewrite !lookup_insert_ne by congruence. assumption. }
  (* union(c, d) *)
  set (hB := <[c := set_parent b (set_parent b nc)]> hA).
  set (hC := <[b := set_tree_size 3 (set_tree_size 2 nb)]> (<[d := set_parent b nd]> hB)).
  assert (HBb : hB !! b = Some (set_tree_size 2 nb)).
  { unfold hB. now rewrite lookup_insert_ne by congruence. }
  assert (HBd : hB !! d = Some nd).
  { unfold hB. now rewrite lookup_insert_ne by congruence. }
  assert (U2 : _union ndebug c d hA = Ret hC).
  { unfold _union. rewrite (load_Some _ _ _ HAc), (load_Some _ _ _ HAd). cbn [obind].
    destruct (decide (_parent (set_parent b nc) = _parent nd)) as [E|_];
      [cbn in E; congruence|].
    rewrite (_root_grandparent _ _ _ _ HAc) by (cbn; congruence || exact HAb).
    cbn [obind set_tree_size _parent]. rewrite Pb. fold hB.
    rewrite (_root_self _ _ _ HBd Pd). cbn [obind].
    rewrite bool_decide_eq_false_2 by assumption. rewrite andb_false_r.
    rewrite (load_Some _ _ _ HBb), (load_Some _ _ _ HBd). cbn [obind].
    cbn [set_tree_size _tree_size]. rewrite Td. change (2 <? 1) with false. cbv iota.
    unfold store_parent. rewrite (load_Some _ _ _ HBd). cbn [obind].
    unfold add_tree_size.
    rewrite (load_Some _ b (set_tree_size 2 nb)) by (now rewrite lookup_insert_ne by congruence).
    cbn [obind]. reflexivity. }
  assert (HCb : hC !! b = Some (set_tree_size 3 (set_tree_size 2 nb)))
    by apply lookup_insert_eq.
  assert (HCd : hC !! d = Some (set_parent b nd)).
  { unfold hC. rewrite lookup_insert_ne by congruence. apply lookup_insert_eq. }
  exists hC, b, hC, b, (<[d := set_parent b (set_parent b nd)]> hC).
  split. { cbn [union_all]. rewrite U1. cbn [obind]. rewrite U2. reflexivity. }
  split. { apply (_root_self _ _ _ HCb). exact Pb. }
  split.
  { rewrite (_root_grandparent _ _ _ _ HCd) by (cbn; congruence || exact HCb).
    cbn [set_tree_size _parent]. now rewrite Pb. }
  split; [reflexivity|].
  unfold parent_of, tree_size_of.
  rewrite lookup_insert_ne by congruence. rewrite HCb. cbn. now rewrite Pb.
Qed.

Lemma union_chain_of_three_witness :
  exists h' rb h1 rd h2,
    union_all false [(1, 2); (2, 3)]%N pop4 = Ret h' /\
    _root 1%N h' = Ret (rb, h1) /\
    _root 3%N h1 = Ret (rd, h2) /\
    rb = rd /\
    parent_of h2 rb = Some rb /\
    tree_size_of h2 rb = Some 3.
Proof.
  apply (union_chain_of_three false pop4 1%N 2%N 3%N); try discriminate.
  intros x Hx. apply list_elem_of_In in Hx. cbn in Hx.
  destruct Hx as [<-|[<-|[<-|[]]]]; split; vm_compute; reflexivity.
Defined.

(** ** Dependency edges: what [_precede] does *)

Lemma wrap_int_small z : INT_MIN <= z <= INT_MAX -> wrap_int z = z.
Proof.
  unfold INT_MIN, INT_MAX, wrap_int. intros Hz.
  rewrite Z.mod_small by lia. lia.
Qed.

Lemma wrap_int_add a b : wrap_int (wrap_int a + b) = wrap_int (a + b).
Proof.
  unfold wrap_int.
  replace ((a + 2 ^ 31) mod 2 ^ 32 - 2 ^ 31 + b + 2 ^ 31)
    with ((a + 2 ^ 31) mod 2 ^ 32 + b) by lia.
  rewrite Zplus_mod_idemp_l. f_equal. f_equal. lia.
Qed.

Lemma after_precede_other u v x n : x <> u -> x <> v -> after_precede u v x n = n.
Proof.
  intros Hu Hv. unfold after_precede.
  destruct (decide (x = u)); [congruence|]. destruct (decide (x = v)); [congruence|].
  rewrite !app_nil_r. now destruct n.
Qed.

(** [_precede] returns whenever both addresses hold a node, also when they
    are the same address, and every node of the heap is updated as
    [after_precede] says. *)
Lemma _precede_lookup (h : gmap N Node) u v :
  is_Some (h !! u) -> is_Some (h !! v) ->
  exists h', _precede u v h = Ret h' /\
    forall x, h' !! x = after_precede u v x <$> h !! x.
Proof.
  intros [nu Hu] [nv Hv]. unfold _precede.
  rewrite (load_Some _ _ _ Hu). cbn [obind].
  destruct (decide (u = v)) as [->|Huv].
  - unfold load. repeat (rewrite lookup_insert_eq; cbn [obind]).
    eexists. split; [reflexivity|]. intros x.
    destruct (decide (x = v)) as [->|Hx].
    + rewrite lookup_insert_eq, Hu. cbn. f_equal. unfold after_precede.
      destruct (decide (v = v)); [|congruence].
      unfold set_num_dependents, set_dependents, set_successors. cbn. reflexivity.
    + rewrite !lookup_insert_ne by congruence.
      destruct (h !! x) as [n|] eqn:E; cbn; [|reflexivity].
      now rewrite after_precede_other.
  - unfold load. rewrite lookup_insert_ne, Hv by assumption. cbn [obind].
    repeat (rewrite lookup_insert_eq; cbn [obind]).
    eexists. split; [reflexivity|]. intros x.
    destruct (decide (x = v)) as [->|Hxv]; [|destruct (decide (x = u)) as [->|Hxu]].
    + rewrite lookup_insert_eq, Hv. cbn. f_equal. unfold after_precede.
      destruct (decide (v = u)); [congruence|]. destruct (decide (v = v)); [|congruence].
      unfold set_num_dependents, set_dependents. cbn. now rewrite app_nil_r.
    + rewrite !lookup_insert_ne by congruence. rewrite lookup_insert_eq, Hu. cbn.
      f_equal. unfold after_precede.
      destruct (decide (u = u)); [|congruence]. destruct (decide (u = v)); [congruence|].
      unfold set_successors. cbn. now rewrite app_nil_r.
    + rewrite !lookup_insert_ne by congruence.
      destruct (h !! x) as [n|] eqn:E; cbn; [|reflexivity].
      now rewrite after_precede_other.
Qed.

(** C10. A call [precede(u, v)] with [u <> v] on two nodes of the heap
    returns and changes three things: [v] is appended at the end of [u]'s
    successor list, [u] is appended at the end of [v]'s dependent list, and
    [v]'s counter is incremented by one (as a 32-bit [int]: plus one below
    [INT_MAX]).  [u]'s dependent list and counter, [v]'s successor list, the
    name, payload, parent, tree size, group and topology of both, and every
    other node are unchanged. *)
Theorem precede_frame (h : gmap N Node) (u v : N) (nu nv : Node) :
  u <> v -> h !! u = Some nu -> h !! v = Some nv ->
  exists h' nu' nv',
    _precede u v h = Ret h' /\ h' !! u = Some nu' /\ h' !! v = Some nv' /\
    _successors nu' = _successors nu ++ [v] /\
    _dependents nv' = _dependents nv ++ [u] /\
    _num_dependents nv' = wrap_int (_num_dependents nv + 1) /\
    (INT_MIN <= _num_dependents nv < INT_MAX ->
     _num_dependents nv' = _num_dependents nv + 1) /\
    _dependents nu' = _dependents nu /\
    _num_dependents nu' = _num_dependents nu /\
    same_static_fields nu nu' /\
    _successors nv' = _successors nv /\
    same_static_fields nv nv' /\
    forall w, w <> u -> w <> v -> h' !! w = h !! w.
Proof.
  intros Huv Hu Hv.
  destruct (_precede_lookup h u v) as (h' & Hret & Hlk); [eauto..|].
  exists h', (after_precede u v u nu), (after_precede u v v nv).
  split; [exact Hret|].
  split; [now rewrite Hlk, Hu|].
  split; [now rewrite Hlk, Hv|].
  unfold after_precede, same_static_fields. cbn.
  destruct (decide (u = u)); [|congruence].
  destruct (decide (v = v)); [|congruence].
  destruct (decide (u = v)); [congruence|].
  destruct (decide (v = u)); [congruence|].
  rewrite !app_nil_r.
  repeat split; try reflexivity.
  - intros Hr. apply wrap_int_small. unfold INT_MIN, INT_MAX in *. lia.
  - intros w Hwu Hwv. rewrite Hlk.
    destruct (h !! w) as [nw|]; cbn; [|reflexivity].
    now rewrite after_precede_other.
Qed.

Lemma precede_frame_witness :
  exists h' nu' nv',
    _precede 0%N 1%N pop4 = Ret h' /\ h' !! 0%N = Some nu' /\ h' !! 1%N = Some nv' /\
    _successors nu' = [1%N] /\ _dependents nv' = [0%N] /\ _num_dependents nv' = 1.
Proof.
  destruct (precede_frame pop4 0%N 1%N (new_Node 0%N (Host 0)) (new_Node 1%N (Host 0)))
    as (h' & nu' & nv' & H1 & H2 & H3 & H4 & H5 & H6 & _);
    [discriminate | vm_compute; reflexivity | vm_compute; reflexivity |].
  exists h', nu', nv'. repeat split; assumption.
Defined.

(** ** Sequences of [precede] calls: the invariant *)

Lemma bump_wrap k c : INT_MIN <= c <= INT_MAX -> bump k c = wrap_int (c + Z.of_nat k).
Proof.
  intros Hc. induction k as [|k IH].
  - unfold bump. cbn [Nat.iter]. change (Z.of_nat 0) with 0.
    rewrite Z.add_0_r. symmetry. now apply wrap_int_small.
  - change (bump (S k) c) with (wrap_int (bump k c + 1)).
    rewrite IH, wrap_int_add. f_equal. lia.
Qed.

Lemma after_calls_fields calls x : forall n,
  _successors (after_calls calls x n) = _successors n ++ targets_of x calls /\
  _dependents (after_calls calls x n) = _dependents n ++ sources_of x calls /\
  _num_dependents (after_calls calls x n) = bump (calls_to x calls) (_num_dependents n) /\
  same_static_fields n (after_calls calls x n).
Proof.
  unfold targets_of, sources_of, calls_to, same_static_fields, bump.
  induction calls as [|[u v] calls IH]; intros n.
  - cbn. rewrite !app_nil_r. repeat split; reflexivity.
  - cbn [after_calls foldl fst snd].
    destruct (IH (after_precede u v x n)) as (IHs & IHd & IHc & IHn & IHh & IHp & IHt & IHg & IHy).
    fold (after_calls calls x (after_precede u v x n)).
    rewrite IHs, IHd, IHc, IHn, IHh, IHp, IHt, IHg, IHy.
    rewrite !filter_cons. cbn [fst snd after_precede _successors _dependents
      _num_dependents _name _handle _parent _tree_size _group _topology].
    repeat split; try reflexivity.
    + destruct (decide (u = x)); destruct (decide (x = u)); try congruence;
        cbn; now rewrite <- ?app_assoc, ?app_nil_r.
    + destruct (decide (v = x)); destruct (decide (x = v)); try congruence;
        cbn; now rewrite <- ?app_assoc, ?app_nil_r.
    + destruct (decide (v = x)); destruct (decide (x = v)); try congruence.
      cbn [length]. now rewrite Nat.iter_succ_r.
Qed.

(** A call sequence all of whose addresses hold a node returns, and leaves
    at every address the node that [after_calls] computes. *)
Lemma precede_all_lookup calls : forall (h : gmap N Node),
  (forall c, c ∈ calls -> is_Some (h !! fst c) /\ is_Some (h !! snd c)) ->
  exists h', precede_all calls h = Ret h' /\
    forall x, h' !! x = after_calls calls x <$> h !! x.
Proof.
  induction calls as [|[u v] calls IH]; intros h Hin.
  - exists h. split; [reflexivity|]. intros x. cbn. now destruct (h !! x).
  - destruct (Hin (u, v)) as [Hu Hv]; [apply list_elem_of_here|]. cbn [fst snd] in *.
    destruct (_precede_lookup h u v Hu Hv) as (h1 & Hret & Hlk).
    destruct (IH h1) as (h' & Hret' & Hlk').
    { intros c Hc. rewrite !Hlk.
      destruct (Hin c) as [[? ->] [? ->]]; [now apply list_elem_of_further|].
      cbn. eauto. }
    exists h'. split.
    + cbn [precede_all]. rewrite Hret. cbn [obind]. exact Hret'.
    + intros x. rewrite Hlk', Hlk. now destruct (h !! x).
Qed.

Lemma fresh_lookup hd ps p : p ∈ ps -> fresh hd ps !! p = Some (new_Node p hd).
Proof.
  unfold fresh. induction ps as [|q ps IH]; intros Hp.
  - now apply not_elem_of_nil in Hp.
  - cbn [foldr]. destruct (decide (q = p)) as [->|Hne].
    + apply lookup_insert_eq.
    + rewrite lookup_insert_ne by assumption. apply IH.
      apply elem_of_cons in Hp as [->|Hp]; [congruence|assumption].
Qed.

Lemma occurrences_targets_of u v calls :
  occurrences v (targets_of u calls) = calls_of u v calls.
Proof.
  unfold occurrences, targets_of, calls_of.
  induction calls as [|[a b] calls IH]; [reflexivity|].
  rewrite !filter_cons. cbn [fst snd].
  destruct (decide (a = u)) as [->|Ha].
  - cbn [fmap list_fmap snd]. rewrite filter_cons.
    destruct (decide (b = v)) as [->|Hb].
    + destruct (decide ((u, v) = (u, v))); [|congruence]. cbn [length]. now f_equal.
    + destruct (decide ((u, b) = (u, v))); [congruence|]. exact IH.
  - destruct (decide ((a, b) = (u, v))); [congruence|]. exact IH.
Qed.

Lemma occurrences_sources_of u v calls :
  occurrences u (sources_of v calls) = calls_of u v calls.
Proof.
  unfold occurrences, sources_of, calls_of.
  induction calls as [|[a b] calls IH]; [reflexivity|].
  rewrite !filter_cons. cbn [fst snd].
  destruct (decide (b = v)) as [->|Hb].
  - cbn [fmap list_fmap fst]. rewrite filter_cons.
    destruct (decide (a = u)) as [->|Ha].
    + destruct (decide ((u, v) = (u, v))); [|congruence]. cbn [length]. now f_equal.
    + destruct (decide ((a, v) = (u, v))); [congruence|]. exact IH.
  - destruct (decide ((a, b) = (u, v))); [congruence|]. exact IH.
Qed.

Lemma fresh_no_edges hd ps : no_edges (fresh hd ps).
Proof.
  intros p n. unfold fresh. induction ps as [|q ps IH]; cbn [foldr]; intros Hp.
  - now rewrite lookup_empty in Hp.
  - destruct (decide (q = p)) as [->|Hne].
    + rewrite lookup_insert_eq in Hp. injection Hp as <-. now cbn.
    + rewrite lookup_insert_ne in Hp by assumption. exact (IH Hp).
Qed.

(** C5. After any sequence of [precede] calls on nodes that are as their
    constructor left them (every call naming two nodes of the heap), for all
    nodes [u] and [v]: [u]'s successor list holds the targets of the calls
    made on [u], in call order, and [v]'s dependent list the sources of the
    calls that named [v]; so [v] occurs in [u]'s successors, and [u] in [v]'s
    dependents, once per call [precede(u, v)] (exactly once when the edge was
    recorded once); and [v]'s counter is the number of calls that named [v]
    as target (as a 32-bit [int]: that number itself up to [INT_MAX]). *)
Theorem precede_all_invariant (h : gmap N Node) (calls : list (N * N)) :
  no_edges h ->
  (forall c, c ∈ calls -> is_Some (h !! fst c) /\ is_Some (h !! snd c)) ->
  exists h', precede_all calls h = Ret h' /\
    forall u v, is_Some (h !! u) -> is_Some (h !! v) ->
      exists nu nv, h' !! u = Some nu /\ h' !! v = Some nv /\
        _successors nu = targets_of u calls /\
        _dependents nv = sources_of v calls /\
        occurrences v (_successors nu) = calls_of u v calls /\
        occurrences u (_dependents nv) = calls_of u v calls /\
        (calls_of u v calls = 1%nat ->
         occurrences v (_successors nu) = 1%nat /\ occurrences u (_dependents nv) = 1%nat) /\
        _num_dependents nv = wrap_int (Z.of_nat (calls_to v calls)) /\
        (Z.of_nat (calls_to v calls) <= INT_MAX ->
         _num_dependents nv = Z.of_nat (calls_to v calls)).
Proof.
  intros Hfresh Hin.
  destruct (precede_all_lookup calls h Hin) as (h' & Hret & Hlk).
  exists h'. split; [exact Hret|]. intros u v [nu Hu] [nv Hv].
  exists (after_calls calls u nu), (after_calls calls v nv).
  split; [now rewrite Hlk, Hu|].
  split; [now rewrite Hlk, Hv|].
  destruct (Hfresh u nu Hu) as (Su0 & _ & _).
  destruct (Hfresh v nv Hv) as (_ & Dv0 & Cv0).
  destruct (after_calls_fields calls u nu) as (Su & _).
  destruct (after_calls_fields calls v nv) as (_ & Dv & Cv & _).
  rewrite Su0 in Su. rewrite Dv0 in Dv. rewrite Cv0 in Cv. cbn [app] in Su, Dv.
  rewrite Su, Dv, Cv, occurrences_targets_of, occurrences_sources_of.
  rewrite bump_wrap by (unfold INT_MIN, INT_MAX; lia). rewrite Z.add_0_l.
  repeat split; try reflexivity; try assumption.
  intros Hle. apply wrap_int_small. unfold INT_MIN, INT_MAX in *. lia.
Qed.

(** The first end-to-end scenario: A, B, C and the calls [precede(A, B)],
    [precede(B, C)] leave B and C with counter 1, A with counter 0,
    [A.successors = [B]] and [B.dependents = [A]]. *)
Lemma precede_all_invariant_witness :
  exists h', precede_all [(0, 1); (1, 2)]%N scenario1_heap = Ret h' /\
    exists na nb nc,
      h' !! 0%N = Some na /\ h' !! 1%N = Some nb /\ h' !! 2%N = Some nc /\
      _successors na = [1%N] /\ _dependents nb = [0%N] /\
      _num_dependents na = 0 /\ _num_dependents nb = 1 /\ _num_dependents nc = 1.
Proof.
  assert (H0 : is_Some (scenario1_heap !! 0%N)) by (vm_compute; eauto).
  assert (H1 : is_Some (scenario1_heap !! 1%N)) by (vm_compute; eauto).
  assert (H2 : is_Some (scenario1_heap !! 2%N)) by (vm_compute; eauto).
  destruct (precede_all_invariant scenario1_heap [(0, 1); (1, 2)]%N)
    as (h' & Hret & Hall).
  { intros p n Hp. unfold scenario1_heap in Hp.
    destruct (decide (p = 0%N)) as [->|?];
      [|destruct (decide (p = 1%N)) as [->|?];
        [|destruct (decide (p = 2%N)) as [->|?]]].
    - rewrite lookup_insert_eq in Hp. injection Hp as <-. now cbn.
    - rewrite lookup_insert_ne, lookup_insert_eq in Hp by discriminate.
      injection Hp as <-. now cbn.
    - rewrite !lookup_insert_ne, lookup_insert_eq in Hp by discriminate.
      injection Hp as <-. now cbn.
    - rewrite !lookup_insert_ne, lookup_empty in Hp by congruence. discriminate. }
  { intros c Hc. apply list_elem_of_In in Hc. cbn in Hc.
    destruct Hc as [<-|[<-|[]]]; split; assumption. }
  exists h'. split; [exact Hret|].
  destruct (Hall 0%N 1%N H0 H1) as (na & nb & Ha & Hb & Hs & Hd & _ & _ & _ & Hcb & _).
  destruct (Hall 1%N 0%N H1 H0) as (_ & na' & _ & Ha' & _ & _ & _ & _ & _ & Hca & _).
  destruct (Hall 1%N 2%N H1 H2) as (_ & nc & _ & Hc & _ & _ & _ & _ & _ & Hcc & _).
  exists na, nb, nc. rewrite Ha in Ha'. injection Ha' as <-.
  repeat split; assumption.
Defined.

(** C5, counterexample to "exactly once" for an edge recorded twice:
    [_precede] has no check for an edge that is already there, so after
    [precede(0, 1)] twice on fresh nodes, node 1 occurs twice (not exactly
    once) in the successor list of node 0, and node 0 twice in the dependent
    list of node 1. *)
Lemma precede_twice_not_once :
  exists h' nu nv,
    precede_all [(0, 1); (0, 1)]%N pop4 = Ret h' /\
    h' !! 0%N = Some nu /\ h' !! 1%N = Some nv /\
    _successors nu = [1; 1]%N /\ _dependents nv = [0; 0]%N /\
    occurrences 1%N (_successors nu) = 2%nat /\
    occurrences 0%N (_dependents nv) = 2%nat /\
    occurrences 1%N (_successors nu) <> 1%nat /\
    occurrences 0%N (_dependents nv) <> 1%nat.
Proof.
  do 3 eexists.
  split; [vm_compute; reflexivity|].
  split; [vm_compute; reflexivity|].
  split; [vm_compute; reflexivity|].
  split; [vm_compute; reflexivity|].
  split; [vm_compute; reflexivity|].
  split; [vm_compute; reflexivity|].
  split; [vm_compute; reflexivity|].
  split; vm_compute; discriminate.
Qed.

(** ** Facts about [dump] *)

Lemma str_app_assoc (a b c : string) : (a +:+ b) +:+ c = a +:+ (b +:+ c).
Proof.
  induction a as [|x a IH]; [reflexivity|].
  change (String x ((a +:+ b) +:+ c) = String x (a +:+ (b +:+ c))). now f_equal.
Qed.

Lemma str_app_nil_r (a : string) : a +:+ "" = a.
Proof.
  induction a as [|x a IH]; [reflexivity|].
  change (String x (a +:+ "") = String x a). now f_equal.
Qed.

Lemma count_lines_app (a b : string) :
  count_lines (a +:+ b) = (count_lines a + count_lines b)%nat.
Proof.
  induction a as [|x a IH]; [reflexivity|].
  change (count_lines (String x (a +:+ b))
          = (count_lines (String x a) + count_lines b)%nat).
  cbn [count_lines]. rewrite IH. lia.
Qed.

Section DumpFacts.

Variable show_ptr : N -> string.

Lemma dump_edges this (succs : list N) : forall os,
  dump_successors show_ptr this succs os
  = os +:+ String.concat "" (edge_line show_ptr this <$> succs).
Proof.
  unfold dump_successors.
  induction succs as [|s succs IH]; intros os.
  - cbn. now rewrite str_app_nil_r.
  - cbn [foldl fmap list_fmap]. rewrite IH.
    unfold put, put_ptr, edge_line, node_id.
    destruct succs as [|s' succs].
    + cbn [list_fmap String.concat]. now rewrite !str_app_assoc, ?str_app_nil_r.
    + cbn [list_fmap String.concat]. now rewrite !str_app_assoc.
Qed.

Lemma dump_os_spec this n os :
  dump_os show_ptr this n os = os +:+ dump_spec show_ptr this n.
Proof.
  unfold dump_os, dump_spec. rewrite dump_edges.
  rewrite <- (str_app_assoc os).
  apply (f_equal (fun s => s +:+ String.concat ""
                                   (edge_line show_ptr this <$> _successors n))).
  unfold declaration_line, label, quoted, node_id, put, put_ptr.
  destruct (decide (_name n = "")) as [E|E].
  - rewrite E. destruct (_handle n); cbn [index kind_of style];
      now rewrite !str_app_assoc, ?str_app_nil_r.
  - destruct (_name n) as [|a s] eqn:En; [congruence|].
    destruct (_handle n); cbn [index kind_of style];
      now rewrite !str_app_assoc, ?str_app_nil_r.
Qed.

(** C9. [dump] writes the declaration line
    [p<address>[label=<quoted label><style>];] -- the label, in
    double quotes, is the name when it is not empty and [p<address>]
    otherwise, the style is the one of the payload kind (nothing for Host)
    -- and then one line [p<address> -> p<successor-address>;] per
    successor, in the order of the successor list; the stream overload
    appends that same text. *)
Theorem dump_format (this : N) (n : Node) :
  dump show_ptr this n
  = declaration_line show_ptr this n
      +:+ String.concat "" (edge_line show_ptr this <$> _successors n)
  /\ (forall os, dump_os show_ptr this n os = os +:+ dump show_ptr this n)
  /\ (forall s, edge_line show_ptr this s
                = "p" +:+ show_ptr this +:+ " -> " +:+ "p" +:+ show_ptr s +:+ ";" +:+ NL)
  /\ declaration_line show_ptr this n
     = "p" +:+ show_ptr this +:+ "[label=" +:+ DQ
         +:+ (if decide (_name n = "") then "p" +:+ show_ptr this else _name n)
         +:+ DQ
         +:+ match _handle n with
             | Pull _ _ _ _ => " style=filled fillcolor=" +:+ DQ +:+ "cyan" +:+ DQ
             | Push _ _ => " style=filled fillcolor=" +:+ DQ +:+ "springgreen" +:+ DQ
             | Kernel _ _ _ => " style=filled fillcolor=" +:+ DQ +:+ "black" +:+ DQ
                                 +:+ " fontcolor=" +:+ DQ +:+ "white" +:+ DQ
             | Transfer _ _ _ => " style=filled fillcolor=" +:+ DQ +:+ "coral" +:+ DQ
             | Host _ => ""
             end
         +:+ "];" +:+ NL.
Proof.
  split; [|split; [|split]].
  - unfold dump. rewrite dump_os_spec. reflexivity.
  - intros os. unfold dump. now rewrite !dump_os_spec.
  - intros s. unfold edge_line, node_id. now rewrite !str_app_assoc.
  - unfold declaration_line, label, quoted, node_id.
    destruct (decide (_name n = "")) as [E|E].
    + rewrite E. destruct (_handle n); cbn [kind_of style];
        now rewrite !str_app_assoc, ?str_app_nil_r.
    + destruct (_name n) as [|a s] eqn:En; [congruence|].
      destruct (_handle n); cbn [kind_of style];
        now rewrite !str_app_assoc, ?str_app_nil_r.
Qed.

(** The name and the addresses are written as they are, so when neither
    holds a newline the text has one line for the declaration and one per
    successor. *)
Lemma dump_line_count (this : N) (n : Node) :
  count_lines (_name n) = 0%nat ->
  (forall p, count_lines (show_ptr p) = 0%nat) ->
  count_lines (declaration_line show_ptr this n) = 1%nat /\
  count_lines (dump show_ptr this n) = S (num_successors n).
Proof.
  intros Hname Hptr.
  assert (Hlabel : count_lines (label show_ptr this n) = 0%nat).
  { unfold label, node_id. destruct (_name n) as [|a s] eqn:En.
    - rewrite count_lines_app, Hptr. reflexivity.
    - exact Hname. }
  assert (Hdecl : count_lines (declaration_line show_ptr this n) = 1%nat).
  { unfold declaration_line, quoted, node_id.
    destruct (_handle n); cbn [kind_of style]; unfold quoted;
      rewrite !count_lines_app, Hlabel, Hptr; reflexivity. }
  split; [exact Hdecl|].
  unfold dump. rewrite dump_os_spec. unfold dump_spec, num_successors.
  change ("" +:+ ?x) with x.
  rewrite count_lines_app, Hdecl. f_equal.
  induction (_successors n) as [|s succs IH]; [reflexivity|].
  assert (Hedge : count_lines (edge_line show_ptr this s) = 1%nat).
  { unfold edge_line, node_id. rewrite !count_lines_app, !Hptr. reflexivity. }
  destruct succs as [|s' succs].
  - exact Hedge.
  - change (count_lines (edge_line show_ptr this s +:+ "" +:+
              String.concat "" (edge_line show_ptr this <$> s' :: succs))
            = S (length (s' :: succs))).
    rewrite !count_lines_app, Hedge, IH. reflexivity.
Qed.

End DumpFacts.

(** The fourth end-to-end scenario: the Kernel node is rendered with black
    fill and white font, and the Host node with no style and one edge line
    to the Kernel node. *)
Example dump_host_kernel :
  exists h nh nk,
    host_kernel_heap = Ret h /\ h !! 16%N = Some nh /\ h !! 32%N = Some nk /\
    dump show_ptr_demo 16%N nh
    = "p0x10[label=" +:+ DQ +:+ "p0x10" +:+ DQ +:+ "];" +:+ NL
        +:+ "p0x10 -> p0x20;" +:+ NL /\
    dump show_ptr_demo 32%N nk
    = "p0x20[label=" +:+ DQ +:+ "p0x20" +:+ DQ
        +:+ " style=filled fillcolor=" +:+ DQ +:+ "black" +:+ DQ
        +:+ " fontcolor=" +:+ DQ +:+ "white" +:+ DQ +:+ "];" +:+ NL.
Proof.
  do 3 eexists.
  split; [vm_compute; reflexivity|].
  split; [vm_compute; reflexivity|].
  split; [vm_compute; reflexivity|].
  split; vm_compute; reflexivity.
Qed.

(** ** Device groups: every interleaving of [claim] has one winner *)

Lemma claim_inv_init ds : claim_inv ds (claim_init ds).
Proof.
  unfold claim_inv, claim_init. cbn [fst snd].
  split; [now rewrite length_fmap|].
  split; [intros H; now contradiction H|].
  intros i c. rewrite list_lookup_fmap.
  destruct (ds !! i) as [d|]; cbn; [|discriminate]. now intros [= <-].
Qed.

Lemma claim_inv_step ds s s' :
  Forall (fun d => d <> UNASSIGNED) ds ->
  claim_inv ds s -> claim_step s s' -> claim_inv ds s'.
Proof.
  intros Hds (Hlen & Hid & Hinv) Hstep.
  destruct Hstep as [g g' cs i d r Hi Hclaim]. unfold claim_inv. cbn [fst snd] in *.
  pose proof (Hinv i _ Hi) as Hdi. cbn in Hdi.
  assert (Hdin : d ∈ ds) by (eapply list_elem_of_lookup_2; exact Hdi).
  assert (Hd : d <> UNASSIGNED) by (exact (proj1 (Forall_forall _ _) Hds d Hdin)).
  split; [now rewrite length_insert|].
  unfold claim in Hclaim.
  destruct (decide (device_id g = UNASSIGNED)) as [Hun|Has];
    injection Hclaim as <- <-; cbn [device_id].
  - (* the group was unassigned: nobody has returned yet *)
    split; [intros _; exact Hdin|].
    intros j c Hj. destruct (decide (i = j)) as [<-|Hij].
    + rewrite list_lookup_insert_eq in Hj by (eapply lookup_lt_Some; exact Hi).
      injection Hj as <-. auto.
    + rewrite list_lookup_insert_ne in Hj by assumption.
      pose proof (Hinv j c Hj) as Hc. destruct c as [d'|r']; [exact Hc|].
      destruct Hc as (_ & Hne). congruence.
  - (* the group was assigned: it stays as it is *)
    split; [exact Hid|].
    intros j c Hj. destruct (decide (i = j)) as [<-|Hij].
    + rewrite list_lookup_insert_eq in Hj by (eapply lookup_lt_Some; exact Hi).
      injection Hj as <-. auto.
    + rewrite list_lookup_insert_ne in Hj by assumption. exact (Hinv j c Hj).
Qed.

Lemma claim_inv_rtc ds s :
  Forall (fun d => d <> UNASSIGNED) ds ->
  rtc claim_step (claim_init ds) s -> claim_inv ds s.
Proof.
  intros Hds Hrtc.
  apply (rtc_ind_r (R := claim_step) (claim_inv ds) (claim_init ds));
    [apply claim_inv_init| |exact Hrtc].
  intros y z _ Hstep Hy. eapply claim_inv_step; eassumption.
Qed.

(** Any caller that has not returned can take its step: [claim] never
    blocks and never fails. *)
Lemma claim_progress (g : DeviceGroup) (cs : list caller) i d :
  cs !! i = Some (Calling d) -> exists s', claim_step (g, cs) s'.
Proof.
  intros Hi. destruct (claim g d) as [g' r] eqn:E.
  eexists. eapply claim_step_at; eassumption.
Qed.

Lemma pending_zero cs : pending cs = 0%nat -> all_returned cs.
Proof.
  induction cs as [|c cs IH]; intros Hp i c' Hi; [now rewrite lookup_nil in Hi|].
  destruct c as [d|r]; [discriminate|]. destruct i as [|i].
  - injection Hi as <-. now exists r.
  - exact (IH Hp i c' Hi).
Qed.

Lemma pending_pos cs : pending cs <> 0%nat -> exists i d, cs !! i = Some (Calling d).
Proof.
  induction cs as [|c cs IH]; intros Hp; [now contradiction Hp|].
  destruct c as [d|r].
  - now exists 0%nat, d.
  - destruct (IH Hp) as (i & d & Hi). now exists (S i), d.
Qed.

Lemma pending_insert cs : forall i d r,
  cs !! i = Some (Calling d) -> S (pending (<[i := Returned r]> cs)) = pending cs.
Proof.
  induction cs as [|c cs IH]; intros i d r Hi; [now rewrite lookup_nil in Hi|].
  destruct i as [|i].
  - injection Hi as ->. reflexivity.
  - cbn [insert list_insert]. destruct c as [d'|r']; cbn [pending];
      [f_equal|]; exact (IH i d r Hi).
Qed.

(** Every interleaving can be completed, in as many steps as there are
    callers that have not returned. *)
Lemma claim_completes n : forall g cs,
  pending cs = n ->
  exists g' cs', rtc claim_step (g, cs) (g', cs') /\ all_returned cs'.
Proof.
  induction n as [|n IH]; intros g cs Hp.
  - exists g, cs. split; [apply rtc_refl|now apply pending_zero].
  - destruct (pending_pos cs) as (i & d & Hi); [lia|].
    destruct (claim g d) as [g1 r] eqn:E.
    destruct (IH g1 (<[i := Returned r]> cs)) as (g' & cs' & Hrtc & Hall).
    { pose proof (pending_insert cs i d r Hi). lia. }
    exists g', cs'. split; [|exact Hall].
    eapply rtc_l; [|exact Hrtc]. eapply claim_step_at; eassumption.
Qed.

(** C6. [claim] on an unassigned group installs the proposal and returns it;
    on an assigned group it changes nothing and returns the installed id;
    every interleaving of the calls of any callers can be run until all
    have returned; and when callers with proposals [ds] (at least one, none
    of them the sentinel) have all returned, after any interleaving of their
    calls, every one of them has returned the id installed in the group,
    which is one of the proposals. *)
Theorem claim_single_winner :
  (forall g d, device_id g = UNASSIGNED ->
     claim g d = ({| device_id := d; num_tasks := num_tasks g |}, d)) /\
  (forall g d, device_id g <> UNASSIGNED -> claim g d = (g, device_id g)) /\
  (forall (ds : list Z) (g : DeviceGroup) (cs : list caller),
     rtc claim_step (claim_init ds) (g, cs) ->
     exists g' cs', rtc claim_step (g, cs) (g', cs') /\ all_returned cs') /\
  (forall (ds : list Z) (g : DeviceGroup) (cs : list caller),
     ds <> [] ->
     Forall (fun d => d <> UNASSIGNED) ds ->
     rtc claim_step (claim_init ds) (g, cs) ->
     all_returned cs ->
     device_id g ∈ ds /\ device_id g <> UNASSIGNED /\
     cs = (fun _ => Returned (device_id g)) <$> ds).
Proof.
  split; [|split; [|split]].
  - intros g d Hg. unfold claim.
    destruct (decide (device_id g = UNASSIGNED)); [reflexivity|congruence].
  - intros g d Hg. unfold claim.
    destruct (decide (device_id g = UNASSIGNED)); [congruence|reflexivity].
  - intros ds g cs _. now apply (claim_completes (pending cs)).
  - intros ds g cs Hne Hds Hrtc Hall.
    destruct (claim_inv_rtc ds (g, cs) Hds Hrtc) as (Hlen & Hid & Hinv). cbn [fst snd] in *.
    assert (Hret : forall i c, cs !! i = Some c ->
                     c = Returned (device_id g) /\ device_id g <> UNASSIGNED).
    { intros i c Hi. destruct (Hall i c Hi) as [r ->].
      destruct (Hinv i _ Hi) as [-> Hne']. auto. }
    assert (Has : device_id g <> UNASSIGNED).
    { destruct cs as [|c cs']; [destruct ds; [congruence|discriminate]|].
      exact (proj2 (Hret 0%nat c eq_refl)). }
    split; [auto|]. split; [exact Has|].
    apply list_eq. intros i. rewrite list_lookup_fmap.
    destruct (cs !! i) as [c|] eqn:Hi.
    + destruct (Hret i c Hi) as [-> _].
      destruct (ds !! i) as [d|] eqn:Hd; [reflexivity|].
      apply lookup_lt_Some in Hi. apply lookup_ge_None in Hd. lia.
    + destruct (ds !! i) as [d|] eqn:Hd; [|reflexivity].
      apply lookup_lt_Some in Hd. apply lookup_ge_None in Hi. lia.
Qed.

(** Two callers proposing devices 0 and 1, the second one running first. *)
Lemma claim_single_winner_witness :
  let g := {| device_id := 1; num_tasks := 0 |} in
  let cs := [Returned 1; Returned 1] in
  rtc claim_step (claim_init [0; 1]) (g, cs) /\
  device_id g ∈ [0; 1] /\ device_id g <> UNASSIGNED /\
  cs = (fun _ => Returned (device_id g)) <$> [0; 1].
Proof.
  intros g cs.
  assert (Hrun : rtc claim_step (claim_init [0; 1]) (g, cs)).
  { eapply rtc_l; [eapply (claim_step_at _ _ _ 1%nat 1 1); reflexivity|].
    eapply rtc_l; [eapply (claim_step_at _ _ _ 0%nat 0 1); reflexivity|].
    apply rtc_refl. }
  split; [exact Hrun|].
  apply (proj2 (proj2 (proj2 claim_single_winner)) [0; 1] g cs).
  - discriminate.
  - repeat constructor; discriminate.
  - exact Hrun.
  - intros i c Hi. destruct i as [|[|i]]; cbn in Hi.
    + injection Hi as <-. now exists 1.
    + injection Hi as <-. now exists 1.
    + discriminate.
Defined.

(** * Further properties of the code *)

(** ** Payload accessors *)

(** Each typed accessor succeeds exactly when the classification predicate
    of its kind is true, so exactly one of the five succeeds on any node,
    and the four device accessors all throw on a node that is not a device
    node. *)
Theorem handle_access_matches_predicate (n : Node) :
  succeeds (_host_handle n) = is_host n /\
  succeeds (_pull_handle n) = is_pull n /\
  succeeds (_push_handle n) = is_push n /\
  succeeds (_transfer_handle n) = is_transfer n /\
  succeeds (_kernel_handle n) = is_kernel n /\
  count_true [succeeds (_host_handle n); succeeds (_pull_handle n);
              succeeds (_push_handle n); succeeds (_transfer_handle n);
              succeeds (_kernel_handle n)] = 1%nat /\
  (is_device n = false ->
   _pull_handle n = BadVariantAccess /\ _push_handle n = BadVariantAccess /\
   _transfer_handle n = BadVariantAccess /\ _kernel_handle n = BadVariantAccess).
Proof.
  unfold _host_handle, _pull_handle, _push_handle, _transfer_handle, _kernel_handle,
    is_device, is_host, is_pull, is_push, is_transfer, is_kernel.
  destruct (_handle n); cbn; repeat split; try reflexivity; discriminate.
Qed.

Lemma handle_access_matches_predicate_witness :
  is_device (new_Node 0%N (Host 7)) = false /\
  _host_handle (new_Node 0%N (Host 7)) = Got 7%N /\
  _kernel_handle (new_Node 0%N (Host 7)) = BadVariantAccess.
Proof.
  split; [reflexivity|]. split; [reflexivity|].
  apply (handle_access_matches_predicate (new_Node 0%N (Host 7))). reflexivity.
Defined.

(** ** Invariants kept by [_precede] *)

Lemma wrap_int_range z : INT_MIN <= wrap_int z <= INT_MAX.
Proof.
  unfold wrap_int, INT_MIN, INT_MAX.
  pose proof (Z.mod_pos_bound (z + 2 ^ 31) (2 ^ 32) ltac:(lia)). lia.
Qed.

Lemma occurrences_app x (l1 l2 : list N) :
  occurrences x (l1 ++ l2) = (occurrences x l1 + occurrences x l2)%nat.
Proof. unfold occurrences. now rewrite filter_app, length_app. Qed.

Lemma length_sources_of x calls : length (sources_of x calls) = calls_to x calls.
Proof. unfold sources_of, calls_to. now rewrite length_fmap. Qed.

(** The counter follows the dependent list: from any heap in which every
    counter is the size of the dependent list (as a 32-bit [int]), any
    sequence of [precede] calls on nodes of the heap returns and leaves a
    heap in which that is still so; while the list has at most [INT_MAX]
    entries the counter is exactly its size. *)
Theorem precede_keeps_counter (h : gmap N Node) (calls : list (N * N)) :
  counter_tracks_dependents h ->
  calls_in_heap calls h ->
  exists h', precede_all calls h = Ret h' /\
    counter_tracks_dependents h' /\
    forall p n, h' !! p = Some n ->
      Z.of_nat (num_dependents n) <= INT_MAX ->
      _num_dependents n = Z.of_nat (num_dependents n).
Proof.
  intros Hinv Hin.
  destruct (precede_all_lookup calls h Hin) as (h' & Hret & Hlk).
  exists h'. split; [exact Hret|].
  assert (Hall : counter_tracks_dependents h').
  { intros p n' Hp. rewrite Hlk in Hp.
    destruct (h !! p) as [n|] eqn:Hn; [|discriminate]. injection Hp as <-.
    destruct (after_calls_fields calls p n) as (_ & Hd & Hc & _).
    unfold num_dependents. rewrite Hc, Hd, length_app, length_sources_of.
    rewrite (Hinv p n Hn). rewrite bump_wrap by apply wrap_int_range.
    rewrite wrap_int_add. unfold num_dependents. f_equal. lia. }
  split; [exact Hall|].
  intros p n Hp Hle. rewrite (Hall p n Hp). apply wrap_int_small.
  unfold INT_MIN, INT_MAX in *. lia.
Qed.

(** Freshly constructed nodes satisfy both invariants. *)
Lemma no_edges_invariants (h : gmap N Node) :
  no_edges h -> counter_tracks_dependents h /\ edges_mirrored h.
Proof.
  intros Hne. split.
  - intros p n Hp. destruct (Hne p n Hp) as (_ & Hd & Hc).
    unfold num_dependents. now rewrite Hc, Hd.
  - intros u v nu nv Hu Hv. destruct (Hne u nu Hu) as (Hs & _).
    destruct (Hne v nv Hv) as (_ & Hd & _). now rewrite Hs, Hd.
Qed.

Lemma pop4_calls_in_heap (calls : list (N * N)) :
  Forall (fun c => (fst c <? 4)%N && (snd c <? 4)%N = true) calls ->
  calls_in_heap calls pop4.
Proof.
  intros Hall c Hc. pose proof (proj1 (Forall_forall _ _) Hall c Hc) as Hb.
  apply andb_true_iff in Hb as [H1 H2].
  apply N.ltb_lt in H1, H2. unfold pop4.
  split; (rewrite fresh_lookup; [eauto|]);
    apply list_elem_of_In; cbn.
  - destruct (fst c) as [|[[|[]|]|[|[]|]|]]; cbn in H1; try lia; tauto.
  - destruct (snd c) as [|[[|[]|]|[|[]|]|]]; cbn in H2; try lia; tauto.
Qed.

Lemma precede_keeps_counter_witness :
  exists h', precede_all [(0, 1); (1, 2); (0, 2)]%N pop4 = Ret h' /\
    counter_tracks_dependents h'.
Proof.
  destruct (precede_keeps_counter pop4 [(0, 1); (1, 2); (0, 2)]%N)
    as (h' & Hret & Hinv & _).
  - apply no_edges_invariants, fresh_no_edges.
  - apply pop4_calls_in_heap. repeat constructor.
  - exists h'. split; assumption.
Defined.

(** The adjacency lists stay mirrored: from any heap in which [v] occurs in
    [u]'s successors as often as [u] occurs in [v]'s dependents, for all
    nodes [u] and [v], any sequence of [precede] calls on nodes of the heap
    returns and leaves a heap in which that is still so. *)
Theorem precede_keeps_edges_mirrored (h : gmap N Node) (calls : list (N * N)) :
  edges_mirrored h ->
  calls_in_heap calls h ->
  exists h', precede_all calls h = Ret h' /\ edges_mirrored h'.
Proof.
  intros Hinv Hin.
  destruct (precede_all_lookup calls h Hin) as (h' & Hret & Hlk).
  exists h'. split; [exact Hret|].
  intros u v nu' nv' Hu Hv. rewrite Hlk in Hu, Hv.
  destruct (h !! u) as [nu|] eqn:Hnu; [|discriminate]. injection Hu as <-.
  destruct (h !! v) as [nv|] eqn:Hnv; [|discriminate]. injection Hv as <-.
  destruct (after_calls_fields calls u nu) as (Hs & _).
  destruct (after_calls_fields calls v nv) as (_ & Hd & _).
  rewrite Hs, Hd, !occurrences_app, occurrences_targets_of, occurrences_sources_of.
  now rewrite (Hinv u v nu nv Hnu Hnv).
Qed.

Lemma precede_keeps_edges_mirrored_witness :
  exists h', precede_all [(0, 1); (0, 1); (1, 1)]%N pop4 = Ret h' /\ edges_mirrored h'.
Proof.
  apply (precede_keeps_edges_mirrored pop4 [(0, 1); (0, 1); (1, 1)]%N).
  - apply no_edges_invariants, fresh_no_edges.
  - apply pop4_calls_in_heap. repeat constructor.
Defined.

(** [precede(u, u)] is not rejected: the node is appended to its own
    successor list and to its own dependent list and its own counter is
    incremented; its other fields and every other node are left as they
    were. *)
Theorem precede_self_edge (h : gmap N Node) (u : N) (n : Node) :
  h !! u = Some n ->
  exists h' n', _precede u u h = Ret h' /\ h' !! u = Some n' /\
    _successors n' = _successors n ++ [u] /\
    _dependents n' = _dependents n ++ [u] /\
    _num_dependents n' = wrap_int (_num_dependents n + 1) /\
    same_static_fields n n' /\
    forall w, w <> u -> h' !! w = h !! w.
Proof.
  intros Hu.
  destruct (_precede_lookup h u u) as (h' & Hret & Hlk); [eauto..|].
  exists h', (after_precede u u u n).
  split; [exact Hret|]. split; [now rewrite Hlk, Hu|].
  unfold after_precede, same_static_fields. cbn.
  destruct (decide (u = u)); [|congruence].
  repeat split; try reflexivity.
  intros w Hw. rewrite Hlk. destruct (h !! w) as [nw|]; cbn; [|reflexivity].
  now rewrite after_precede_other.
Qed.

Lemma precede_self_edge_witness :
  exists h' n', _precede 2%N 2%N pop4 = Ret h' /\ h' !! 2%N = Some n' /\
    _successors n' = [2%N] /\ _dependents n' = [2%N] /\ _num_dependents n' = 1.
Proof.
  destruct (precede_self_edge pop4 2%N (new_Node 2%N (Host 0)))
    as (h' & n' & Hret & Hn & Hs & Hd & Hc & _); [vm_compute; reflexivity|].
  exists h', n'. repeat split; assumption.
Defined.

(** A sequence of [precede] calls only appends: in the heap it leaves, the
    same addresses hold a node as before, every node's old successor and
    dependent lists are prefixes of the new ones, and its name, payload,
    union-find parent and size, group and topology are unchanged. *)
Theorem precede_all_only_appends (h : gmap N Node) (calls : list (N * N)) :
  calls_in_heap calls h ->
  exists h', precede_all calls h = Ret h' /\
    (forall p, h' !! p = None <-> h !! p = None) /\
    forall p n, h !! p = Some n ->
      exists n', h' !! p = Some n' /\
        _successors n `prefix_of` _successors n' /\
        _dependents n `prefix_of` _dependents n' /\
        same_static_fields n n'.
Proof.
  intros Hin.
  destruct (precede_all_lookup calls h Hin) as (h' & Hret & Hlk).
  exists h'. split; [exact Hret|]. split.
  - intros p. rewrite Hlk. destruct (h !! p); cbn; split; congruence.
  - intros p n Hp. exists (after_calls calls p n).
    split; [now rewrite Hlk, Hp|].
    destruct (after_calls_fields calls p n) as (Hs & Hd & _ & Hst).
    rewrite Hs, Hd. repeat split; try apply prefix_app_r; try reflexivity; apply Hst.
Qed.

Lemma precede_all_only_appends_witness :
  exists h', precede_all [(0, 1); (1, 2)]%N pop4 = Ret h' /\
    (forall p, h' !! p = None <-> pop4 !! p = None).
Proof.
  destruct (precede_all_only_appends pop4 [(0, 1); (1, 2)]%N) as (h' & Hret & Hdom & _).
  - apply pop4_calls_in_heap. repeat constructor.
  - exists h'. split; assumption.
Defined.

(** ** What [_root] keeps *)

Lemma true_root_mono f (h : gmap N Node) : forall y r,
  true_root f h y = Some r -> true_root (S f) h y = Some r.
Proof.
  induction f as [|f IH]; intros y r H; [discriminate|].
  cbn [true_root] in H. change (true_root (S (S f)) h y) with
    (match h !! y with
     | None => None
     | Some n => if decide (_parent n = y) then Some y else true_root (S f) h (_parent n)
     end).
  destruct (h !! y) as [n|]; [|discriminate].
  destruct (decide (_parent n = y)); [exact H|]. now apply IH.
Qed.

(** Two nodes that are each other's parent have no root. *)
Lemma true_root_two_cycle (h : gmap N Node) x p n np :
  h !! x = Some n -> _parent n = p -> p <> x ->
  h !! p = Some np -> _parent np = x ->
  forall f, true_root f h x = None /\ true_root f h p = None.
Proof.
  intros Hx Hn Hne Hp Hnp f. induction f as [|f [IHx IHp]]; [now split|].
  cbn [true_root]. rewrite Hx, Hp, Hn, Hnp.
  destruct (decide (p = x)); [congruence|]. destruct (decide (x = p)); [congruence|].
  now split.
Qed.

(** One hop of compression at [x] keeps the root of every node, with the
    same fuel. *)
Lemma compress_preserves (h : gmap N Node) x n p :
  h !! x = Some n -> _parent n <> x -> h !! _parent n = Some p ->
  forall f y r, true_root f h y = Some r ->
    true_root f (<[x := set_parent (_parent p) n]> h) y = Some r.
Proof.
  intros Hx Hne Hp f. induction f as [|f IH]; intros y r H; [discriminate|].
  cbn [true_root] in H |- *.
  destruct (decide (y = x)) as [->|Hy].
  - rewrite Hx in H. rewrite lookup_insert_eq. cbn [set_parent _parent].
    destruct (decide (_parent n = x)); [congruence|].
    destruct (decide (_parent p = x)) as [Hc|Hc].
    + destruct (true_root_two_cycle h x (_parent n) n p Hx eq_refl Hne Hp Hc f) as [_ Hnone].
      congruence.
    + destruct f as [|f]; [discriminate|].
      apply IH. cbn [true_root] in H. rewrite Hp in H.
      destruct (decide (_parent p = _parent n)) as [E|E].
      * injection H as <-. rewrite E. cbn [true_root]. rewrite Hp.
        destruct (decide (_parent p = _parent n)); [reflexivity|congruence].
      * now apply true_root_mono.
  - rewrite lookup_insert_ne by congruence.
    destruct (h !! y) as [ny|]; [|discriminate].
    destruct (decide (_parent ny = y)); [exact H|]. now apply IH.
Qed.

(** [_root] writes one field: when it returns, every other node is as it
    was, the node it was called on differs at most in its parent, which is
    now the returned node, and no tree size has changed. *)
Theorem root_writes_only_own_parent (h : gmap N Node) (x r : N) (h' : gmap N Node) :
  _root x h = Ret (r, h') ->
  (forall y, y <> x -> h' !! y = h !! y) /\
  exists n n', h !! x = Some n /\ h' !! x = Some n' /\
    _parent n' = r /\ _tree_size n' = _tree_size n /\ same_graph_fields n n'.
Proof.
  intros H.
  apply _root_Ret in H as (n & Hx & [(Pn & -> & ->)|(Pn & p & Hp & -> & ->)]).
  - split; [reflexivity|]. exists n, n. unfold same_graph_fields. tauto.
  - split; [intros y Hy; now rewrite lookup_insert_ne by congruence|].
    exists n, (set_parent (_parent p) n). rewrite lookup_insert_eq.
    unfold same_graph_fields. cbn. tauto.
Qed.

(** The forest of [calls4] and the result of [_root] on its deepest node. *)
Lemma calls4_root_3 :
  exists h r h', union_all false calls4 pop4 = Ret h /\ _root 3%N h = Ret (r, h').
Proof. do 3 eexists. split; vm_compute; reflexivity. Defined.

Lemma root_writes_only_own_parent_witness :
  exists h r h', union_all false calls4 pop4 = Ret h /\ _root 3%N h = Ret (r, h') /\
    forall y, y <> 3%N -> h' !! y = h !! y.
Proof.
  destruct calls4_root_3 as (h & r & h' & Hh & Hr).
  exists h, r, h'. split; [exact Hh|]. split; [exact Hr|].
  apply (root_writes_only_own_parent h 3%N r h' Hr).
Defined.

(** Path compression is sound: when [_root] returns, every node that had a
    true root before the call (a chain of parents ending in a node that is
    its own parent) has the same true root after it. *)
Theorem root_preserves_true_roots (h : gmap N Node) (x r : N) (h' : gmap N Node) :
  _root x h = Ret (r, h') ->
  forall y t, find_true h y = Some t -> find_true h' y = Some t.
Proof.
  intros H y t Ht.
  apply _root_Ret in H as (n & Hx & [(Pn & -> & ->)|(Pn & p & Hp & -> & ->)]);
    [exact Ht|].
  unfold find_true in *.
  rewrite map_size_insert_Some by eauto.
  now apply compress_preserves.
Qed.

Lemma root_preserves_true_roots_witness :
  exists h r h', union_all false calls4 pop4 = Ret h /\ _root 3%N h = Ret (r, h') /\
    find_true h' 3%N = Some 0%N /\ find_true h' 1%N = Some 0%N.
Proof.
  destruct calls4_root_3 as (h & r & h' & Hh & Hr).
  exists h, r, h'. split; [exact Hh|]. split; [exact Hr|].
  injection Hh as <-.
  split; apply (root_preserves_true_roots _ 3%N r h' Hr); vm_compute; reflexivity.
Defined.

(** [_root] never leaves the tree: when the node it is called on has a true
    root, the node it returns has that same true root, before the call and
    after it. *)
Theorem root_result_in_same_tree (h : gmap N Node) (x r : N) (h' : gmap N Node) :
  _root x h = Ret (r, h') ->
  forall t, find_true h x = Some t ->
    find_true h r = Some t /\ find_true h' r = Some t.
Proof.
  intros H t Ht.
  assert (Hr : find_true h r = Some t).
  { pose proof H as H0.
    apply _root_Ret in H0 as (n & Hx & [(Pn & -> & _)|(Pn & p & Hp & -> & _)]);
      [exact Ht|].
    unfold find_true in *. destruct (size h) as [|[|f]]; cbn [true_root] in Ht.
    - discriminate.
    - rewrite Hx in Ht. destruct (decide (_parent n = x)); [congruence|discriminate].
    - rewrite Hx in Ht. destruct (decide (_parent n = x)); [congruence|].
      rewrite Hp in Ht. destruct (decide (_parent p = _parent n)) as [E|E].
      + injection Ht as <-. rewrite E. cbn [true_root]. rewrite Hp.
        destruct (decide (_parent p = _parent n)); [reflexivity|congruence].
      + now apply true_root_mono, true_root_mono. }
  split; [exact Hr|].
  apply _root_Ret in H as (n & Hx & [(Pn & -> & ->)|(Pn & p & Hp & -> & ->)]);
    [exact Hr|].
  unfold find_true in *. rewrite map_size_insert_Some by eauto.
  now apply compress_preserves.
Qed.

Lemma root_result_in_same_tree_witness :
  exists h r h', union_all false calls4 pop4 = Ret h /\ _root 3%N h = Ret (r, h') /\
    find_true h r = Some 0%N /\ find_true h' r = Some 0%N.
Proof.
  destruct calls4_root_3 as (h & r & h' & Hh & Hr).
  exists h, r, h'. split; [exact Hh|]. split; [exact Hr|].
  injection Hh as <-.
  apply (root_result_in_same_tree _ 3%N r h' Hr). vm_compute. reflexivity.
Defined.

(** ** When [_root] is right *)

Lemma true_root_is_root f (h : gmap N Node) : forall y t,
  true_root f h y = Some t -> exists nt, h !! t = Some nt /\ _parent nt = t.
Proof.
  induction f as [|f IH]; intros y t H; [discriminate|].
  cbn [true_root] in H. destruct (h !! y) as [n|] eqn:Hy; [|discriminate].
  destruct (decide (_parent n = y)) as [E|E]; [|now apply (IH _ _ H)].
  injection H as <-. now exists n.
Qed.

(** Up to two links from the root [_root] is exact: when the parent of the
    parent of [x] is its own parent (which covers [x] being a root, or the
    child of one), [_root] returns that node, it is the true root of [x],
    [x] now points at it, and further calls on [x] or on the result return
    it again and change nothing. *)
Theorem root_exact_within_two_links (h : gmap N Node) (x : N) (n p g : Node) :
  h !! x = Some n -> h !! _parent n = Some p -> h !! _parent p = Some g ->
  _parent g = _parent p ->
  exists h', _root x h = Ret (_parent p, h') /\
    true_root 3 h x = Some (_parent p) /\
    parent_of h' x = Some (_parent p) /\
    _root x h' = Ret (_parent p, h') /\
    _root (_parent p) h' = Ret (_parent p, h').
Proof.
  intros Hx Hp Hg Hroot.
  destruct (decide (_parent n = x)) as [Pn|Pn].
  - (* [x] is a root *)
    rewrite Pn in Hp. assert (p = n) by congruence. subst p.
    rewrite Pn. exists h. rewrite (_root_self _ _ _ Hx Pn).
    unfold parent_of. cbn [true_root]. rewrite Hx. cbn.
    destruct (decide (_parent n = x)); [|congruence]. rewrite Pn. tauto.
  - assert (Hgx : _parent p <> x).
    { intros E. rewrite E in Hg. assert (g = n) by congruence. subst g.
      rewrite E in Hroot. congruence. }
    set (h' := <[x := set_parent (_parent p) n]> h).
    assert (Hx' : h' !! x = Some (set_parent (_parent p) n)) by apply lookup_insert_eq.
    assert (Hg' : h' !! _parent p = Some g).
    { unfold h'. now rewrite lookup_insert_ne by congruence. }
    exists h'. split; [exact (_root_grandparent _ _ _ _ Hx Pn Hp)|].
    split.
    { cbn [true_root]. rewrite Hx, Hp.
      destruct (decide (_parent n = x)); [congruence|].
      destruct (decide (_parent p = _parent n)) as [E|E]; [now rewrite E|].
      rewrite Hg. destruct (decide (_parent g = _parent p)); [reflexivity|congruence]. }
    split; [unfold parent_of; now rewrite Hx'|].
    split.
    + rewrite (_root_grandparent _ _ _ _ Hx') by (cbn; congruence || exact Hg').
      cbn [set_parent _parent]. rewrite Hroot. f_equal. f_equal.
      unfold h'. now rewrite insert_insert_eq.
    + exact (_root_self _ _ _ Hg' Hroot).
Qed.

Lemma root_exact_within_two_links_witness :
  exists h h', union_all false calls4 pop4 = Ret h /\
    _root 3%N h = Ret (0%N, h') /\ _root 3%N h' = Ret (0%N, h').
Proof.
  destruct calls4_forest as (h & Hh & Hpar).
  assert (Hlk : forall x q, ({[ 0 := 0; 1 := 0; 2 := 0; 3 := 2 ]}%N : gmap N N) !! x = Some q ->
                 exists n, h !! x = Some n /\ _parent n = q).
  { intros x q Hq. apply parent_of_Some. now rewrite Hpar. }
  destruct (Hlk 3%N 2%N eq_refl) as (n & Hn & Pn).
  destruct (Hlk 2%N 0%N eq_refl) as (p & Hp & Pp).
  destruct (Hlk 0%N 0%N eq_refl) as (g & Hg & Pg).
  destruct (root_exact_within_two_links h 3%N n p g) as (h' & H1 & _ & _ & H2 & _).
  - exact Hn.
  - now rewrite Pn.
  - now rewrite Pp.
  - now rewrite Pg, Pp.
  - exists h, h'. rewrite Pp in H1, H2. auto.
Defined.

(** One more call brings [x] one link closer, for chains of three nodes
    or more. *)
Lemma root_step_shortens f (h : gmap N Node) x t :
  true_root (S (S (S f))) h x = Some t ->
  exists r h', _root x h = Ret (r, h') /\ true_root (S (S f)) h' x = Some t.
Proof.
  intros H. pose proof H as H0. cbn [true_root] in H0.
  destruct (h !! x) as [n|] eqn:Hx; [|discriminate].
  destruct (decide (_parent n = x)) as [Pn|Pn].
  - injection H0 as <-. exists x, h. split; [exact (_root_self _ _ _ Hx Pn)|].
    cbn [true_root]. rewrite Hx. destruct (decide (_parent n = x)); [reflexivity|congruence].
  - destruct (h !! _parent n) as [p|] eqn:Hp; [|discriminate].
    exists (_parent p), (<[x := set_parent (_parent p) n]> h).
    split; [exact (_root_grandparent _ _ _ _ Hx Pn Hp)|].
    assert (Hgx : _parent p <> x).
    { intros E.
      destruct (true_root_two_cycle h x (_parent n) n p Hx eq_refl Pn Hp E (S (S (S f))))
        as [Hnone _]. congruence. }
    change (true_root (S (S f)) (<[x := set_parent (_parent p) n]> h) x) with
      (match <[x := set_parent (_parent p) n]> h !! x with
       | None => None
       | Some n0 => if decide (_parent n0 = x) then Some x
                    else true_root (S f) (<[x := set_parent (_parent p) n]> h) (_parent n0)
       end).
    rewrite lookup_insert_eq. cbn [set_parent _parent].
    destruct (decide (_parent p = x)); [congruence|].
    apply compress_preserves; [assumption..|].
    destruct (decide (_parent p = _parent n)) as [E|E].
    + injection H0 as <-. rewrite E. cbn [true_root]. rewrite Hp.
      destruct (decide (_parent p = _parent n)); [reflexivity|congruence].
    + exact H0.
Qed.

Lemma root_exact_base (h : gmap N Node) x t :
  true_root 3 h x = Some t ->
  exists h', _root x h = Ret (t, h') /\ parent_of h' t = Some t.
Proof.
  intros H. destruct (true_root_is_root _ _ _ _ H) as (nt & Ht & Pt).
  cbn [true_root] in H.
  destruct (h !! x) as [n|] eqn:Hx; [|discriminate].
  destruct (decide (_parent n = x)) as [Pn|Pn].
  - injection H as <-. exists h. split; [exact (_root_self _ _ _ Hx Pn)|].
    unfold parent_of. rewrite Ht. cbn. now rewrite Pt.
  - destruct (h !! _parent n) as [p|] eqn:Hp; [|discriminate].
    assert (Hpt : _parent p = t).
    { destruct (decide (_parent p = _parent n)) as [E|E]; [congruence|].
      destruct (h !! _parent p) as [g|]; [|discriminate].
      destruct (decide (_parent g = _parent p)); [congruence|discriminate]. }
    exists (<[x := set_parent (_parent p) n]> h).
    split; [rewrite <- Hpt; exact (_root_grandparent _ _ _ _ Hx Pn Hp)|].
    unfold parent_of. rewrite lookup_insert_ne by congruence.
    rewrite Ht. cbn. now rewrite Pt.
Qed.

(** Repeated calls converge: when [x] has a true root [t] at most [k + 2]
    links away, the last of [k + 1] successive calls of [_root] on [x]
    returns [t] (each call moves [x]'s parent pointer one link up), and [t]
    is then still its own parent. *)
Theorem root_repeat_reaches_true_root (k : nat) : forall (h : gmap N Node) (x t : N),
  true_root (S (S (S k))) h x = Some t ->
  exists h', root_repeat k x h = Ret (t, h') /\ parent_of h' t = Some t.
Proof.
  induction k as [|k IH]; intros h x t H.
  - now apply root_exact_base.
  - destruct (root_step_shortens _ _ _ _ H) as (r & h1 & Hr & H1).
    destruct (IH h1 x t H1) as (h' & Hrep & Ht).
    exists h'. split; [|exact Ht].
    cbn [root_repeat]. rewrite Hr. exact Hrep.
Qed.

(** On the chain 7 -> 6 -> 4 -> 0 the second call reaches the root. *)
Lemma root_repeat_reaches_true_root_witness :
  exists h h', union_all false calls8 pop8 = Ret h /\
    root_repeat 1 7%N h = Ret (0%N, h') /\ parent_of h' 0%N = Some 0%N.
Proof.
  destruct calls8_forest as (h & Hh & _).
  destruct (root_repeat_reaches_true_root 1 h 7%N 0%N) as (h' & Hrep & Ht).
  - injection Hh as <-. vm_compute. reflexivity.
  - exists h, h'. auto.
Defined.

(** ** What [_union] does on two roots *)

(** The heap that [_union] leaves when both nodes are distinct roots. *)
Lemma _union_roots_heap (ndebug : bool) (h : gmap N Node) (a b : N) (na nb : Node) :
  a <> b ->
  h !! a = Some na -> _parent na = a ->
  h !! b = Some nb -> _parent nb = b ->
  INT_MIN <= _tree_size na + _tree_size nb <= INT_MAX ->
  _union ndebug a b h =
    Ret (if _tree_size na <? _tree_size nb
         then <[b := set_tree_size (_tree_size nb + _tree_size na) nb]>
                (<[a := set_parent b na]> h)
         else <[a := set_tree_size (_tree_size na + _tree_size nb) na]>
                (<[b := set_parent a nb]> h)).
Proof.
  intros Hab Ha Pa Hb Pb Hrange. unfold _union.
  rewrite (load_Some _ _ _ Ha), (load_Some _ _ _ Hb). cbn [obind].
  destruct (decide (_parent na = _parent nb)); [congruence|].
  rewrite (_root_self _ _ _ Ha Pa). cbn [obind].
  rewrite (_root_self _ _ _ Hb Pb). cbn [obind].
  rewrite bool_decide_eq_false_2 by assumption. rewrite andb_false_r.
  rewrite (load_Some _ _ _ Ha), (load_Some _ _ _ Hb). cbn [obind].
  assert (Hr1 : (INT_MIN <=? _tree_size nb + _tree_size na)
                && (_tree_size nb + _tree_size na <=? INT_MAX) = true).
  { apply andb_true_iff. split; apply Z.leb_le; lia. }
  assert (Hr2 : (INT_MIN <=? _tree_size na + _tree_size nb)
                && (_tree_size na + _tree_size nb <=? INT_MAX) = true).
  { apply andb_true_iff. split; apply Z.leb_le; lia. }
  destruct (_tree_size na <? _tree_size nb).
  - unfold store_parent. rewrite (load_Some _ _ _ Ha). cbn [obind].
    unfold add_tree_size. rewrite (load_Some _ b nb) by (now rewrite lookup_insert_ne).
    cbn [obind]. now rewrite Hr1.
  - unfold store_parent. rewrite (load_Some _ _ _ Hb). cbn [obind].
    unfold add_tree_size.
    rewrite (load_Some _ a na) by (now rewrite lookup_insert_ne by congruence).
    cbn [obind]. now rewrite Hr2.
Qed.

(** Union by size: called on two distinct roots whose sizes add up within
    [int], [_union] returns (with or without [NDEBUG]); the root with the
    strictly smaller size counter becomes a child of the other, and on equal
    sizes the argument becomes a child of the node the call was made on; the
    winner stays a root and its counter becomes the sum; the loser keeps its
    counter; no other node changes. *)
Theorem union_of_roots_by_size (ndebug : bool) (h : gmap N Node) (a b : N) (na nb : Node) :
  a <> b ->
  h !! a = Some na -> _parent na = a ->
  h !! b = Some nb -> _parent nb = b ->
  INT_MIN <= _tree_size na + _tree_size nb <= INT_MAX ->
  let small := _tree_size na <? _tree_size nb in
  let winner := if small then b else a in
  let loser := if small then a else b in
  exists h', _union ndebug a b h = Ret h' /\
    parent_of h' loser = Some winner /\
    parent_of h' winner = Some winner /\
    tree_size_of h' winner = Some (_tree_size na + _tree_size nb) /\
    tree_size_of h' loser = tree_size_of h loser /\
    forall y, y <> a -> y <> b -> h' !! y = h !! y.
Proof.
  intros Hab Ha Pa Hb Pb Hrange small winner loser.
  eexists. split; [exact (_union_roots_heap ndebug h a b na nb Hab Ha Pa Hb Pb Hrange)|].
  subst small winner loser. unfold parent_of, tree_size_of.
  destruct (_tree_size na <? _tree_size nb).
  - rewrite lookup_insert_eq, (lookup_insert_ne _ b a), lookup_insert_eq, Ha by congruence.
    cbn. rewrite Pb. repeat split; try reflexivity.
    + f_equal. lia.
    + intros y Hya Hyb. now rewrite !lookup_insert_ne by congruence.
  - rewrite lookup_insert_eq, (lookup_insert_ne _ a b), lookup_insert_eq, Hb by congruence.
    cbn. rewrite Pa. repeat split; try reflexivity.
    intros y Hya Hyb. now rewrite !lookup_insert_ne by congruence.
Qed.

Lemma union_of_roots_by_size_witness :
  exists h', _union false 2%N 3%N pop4 = Ret h' /\
    parent_of h' 3%N = Some 2%N /\ tree_size_of h' 2%N = Some 2.
Proof.
  destruct (union_of_roots_by_size false pop4 2%N 3%N
              (new_Node 2%N (Host 0)) (new_Node 3%N (Host 0)))
    as (h' & Hret & Hl & _ & Hs & _);
    [discriminate | vm_compute; reflexivity | reflexivity
    | vm_compute; reflexivity | reflexivity | vm_compute; split; discriminate |].
  exists h'. auto.
Defined.

(** Repeating a union is harmless: after [_union] has joined two distinct
    roots, the same call again, or the call with the two nodes swapped,
    returns at once and leaves the heap as it is (no assertion, no size
    counted twice). *)
Theorem union_of_roots_idempotent (ndebug : bool) (h : gmap N Node) (a b : N) (na nb : Node) :
  a <> b ->
  h !! a = Some na -> _parent na = a ->
  h !! b = Some nb -> _parent nb = b ->
  INT_MIN <= _tree_size na + _tree_size nb <= INT_MAX ->
  exists h', _union ndebug a b h = Ret h' /\
    _union ndebug a b h' = Ret h' /\ _union ndebug b a h' = Ret h'.
Proof.
  intros Hab Ha Pa Hb Pb Hrange.
  eexists. split; [exact (_union_roots_heap ndebug h a b na nb Hab Ha Pa Hb Pb Hrange)|].
  unfold _union, load.
  destruct (_tree_size na <? _tree_size nb).
  - rewrite lookup_insert_eq, (lookup_insert_ne _ b a), lookup_insert_eq by congruence.
    cbn. rewrite Pb.
    destruct (decide (b = b)); [|congruence]. tauto.
  - rewrite lookup_insert_eq, (lookup_insert_ne _ a b), lookup_insert_eq by congruence.
    cbn. rewrite Pa.
    destruct (decide (a = a)); [|congruence]. tauto.
Qed.

Lemma union_of_roots_idempotent_witness :
  exists h', _union false 2%N 3%N pop4 = Ret h' /\
    _union false 2%N 3%N h' = Ret h' /\ _union false 3%N 2%N h' = Ret h'.
Proof.
  apply (union_of_roots_idempotent false pop4 2%N 3%N
           (new_Node 2%N (Host 0)) (new_Node 3%N (Host 0)));
    [discriminate | vm_compute; reflexivity | reflexivity
    | vm_compute; reflexivity | reflexivity | vm_compute; split; discriminate].
Defined.

(** ** What [_union] never touches *)

Lemma obind_Ret {A B} (m : outcome A) (k : A -> outcome B) b :
  obind m k = Ret b -> exists a, m = Ret a /\ k a = Ret b.
Proof. destruct m; cbn; try discriminate. eauto. Qed.

Lemma same_graph_fields_refl n : same_graph_fields n n.
Proof. unfold same_graph_fields. tauto. Qed.

Lemma same_graph_fields_trans n1 n2 n3 :
  same_graph_fields n1 n2 -> same_graph_fields n2 n3 -> same_graph_fields n1 n3.
Proof. unfold same_graph_fields. intuition congruence. Qed.

Lemma union_find_only_refl (h : gmap N Node) : union_find_only h h.
Proof. intros p. destruct (h !! p); [apply same_graph_fields_refl|exact I]. Qed.

Lemma union_find_only_trans (h1 h2 h3 : gmap N Node) :
  union_find_only h1 h2 -> union_find_only h2 h3 -> union_find_only h1 h3.
Proof.
  intros H12 H23 p. specialize (H12 p). specialize (H23 p).
  destruct (h1 !! p), (h2 !! p), (h3 !! p); try tauto.
  eapply same_graph_fields_trans; eassumption.
Qed.

Lemma union_find_only_insert (h : gmap N Node) x n n' :
  h !! x = Some n -> same_graph_fields n n' -> union_find_only h (<[x := n']> h).
Proof.
  intros Hx Hs p. destruct (decide (x = p)) as [<-|Hp].
  - now rewrite lookup_insert_eq, Hx.
  - rewrite lookup_insert_ne by assumption.
    destruct (h !! p); [apply same_graph_fields_refl|exact I].
Qed.

Lemma _root_union_find_only (h : gmap N Node) x r h' :
  _root x h = Ret (r, h') -> union_find_only h h'.
Proof.
  intros H.
  apply _root_Ret in H as (n & Hx & [(Pn & -> & ->)|(Pn & p & Hp & -> & ->)]).
  - apply union_find_only_refl.
  - apply (union_find_only_insert h x n); [exact Hx|]. unfold same_graph_fields. cbn. tauto.
Qed.

Lemma store_parent_union_find_only (h : gmap N Node) r p h' :
  store_parent r p h = Ret h' -> union_find_only h h'.
Proof.
  unfold store_parent. intros H. apply obind_Ret in H as (n & Hn & H).
  injection H as <-. apply load_Ret in Hn.
  apply (union_find_only_insert h r n); [exact Hn|]. unfold same_graph_fields. cbn. tauto.
Qed.

Lemma add_tree_size_union_find_only (h : gmap N Node) r k h' :
  add_tree_size r k h = Ret h' -> union_find_only h h'.
Proof.
  unfold add_tree_size. intros H. apply obind_Ret in H as (n & Hn & H).
  apply load_Ret in Hn.
  destruct ((INT_MIN <=? _tree_size n + k) && (_tree_size n + k <=? INT_MAX));
    [|discriminate].
  injection H as <-.
  apply (union_find_only_insert h r n); [exact Hn|]. unfold same_graph_fields. cbn. tauto.
Qed.

Lemma _union_union_find_only ndebug (h : gmap N Node) a b h' :
  _union ndebug a b h = Ret h' -> union_find_only h h'.
Proof.
  unfold _union. intros H.
  apply obind_Ret in H as (na & _ & H). apply obind_Ret in H as (nb & _ & H).
  destruct (decide (_parent na = _parent nb)).
  { injection H as <-. apply union_find_only_refl. }
  apply obind_Ret in H as ([xroot h1] & Hr1 & H).
  apply obind_Ret in H as ([yroot h2] & Hr2 & H).
  apply _root_union_find_only in Hr1, Hr2.
  destruct (negb ndebug && bool_decide (xroot = yroot)); [discriminate|].
  apply obind_Ret in H as (rx & _ & H). apply obind_Ret in H as (ry & _ & H).
  destruct (_tree_size rx <? _tree_size ry);
    apply obind_Ret in H as (h3 & Hs & H);
    apply store_parent_union_find_only in Hs;
    apply add_tree_size_union_find_only in H;
    repeat (eapply union_find_only_trans; [eassumption|]); apply union_find_only_refl.
Qed.

(** The union-find operations touch nothing but the forest: whenever a
    sequence of [_union] calls returns, the heap holds nodes at the same
    addresses as before, and every node has the name, payload, successor
    list, dependent list, counter, group and topology it had. *)
Theorem union_all_keeps_graph (ndebug : bool) (calls : list (N * N)) :
  forall (h h' : gmap N Node),
    union_all ndebug calls h = Ret h' ->
    (forall p, h' !! p = None <-> h !! p = None) /\
    forall p n, h !! p = Some n ->
      exists n', h' !! p = Some n' /\ same_graph_fields n n'.
Proof.
  assert (Hufo : forall h h', union_all ndebug calls h = Ret h' -> union_find_only h h').
  { induction calls as [|[a b] calls IH]; intros h h' H.
    - injection H as <-. apply union_find_only_refl.
    - cbn [union_all] in H. apply obind_Ret in H as (h1 & H1 & H).
      eapply union_find_only_trans; [exact (_union_union_find_only _ _ _ _ _ H1)|].
      now apply IH. }
  intros h h' H. specialize (Hufo h h' H). split.
  - intros p. specialize (Hufo p). destruct (h !! p), (h' !! p); try tauto; split; congruence.
  - intros p n Hp. specialize (Hufo p). rewrite Hp in Hufo.
    destruct (h' !! p) as [n'|]; [|tauto]. now exists n'.
Qed.

Lemma union_all_keeps_graph_witness :
  exists h, union_all false calls8 pop8 = Ret h /\
    forall p, h !! p = None <-> pop8 !! p = None.
Proof.
  destruct calls8_forest as (h & Hh & _). exists h. split; [exact Hh|].
  apply (union_all_keeps_graph false calls8 pop8 h Hh).
Defined.

(** ** Memory safety of the forest operations *)

Lemma is_Some_insert_mono (h : gmap N Node) x v y :
  is_Some (h !! y) -> is_Some (<[x := v]> h !! y).
Proof.
  intros Hy. destruct (decide (x = y)) as [<-|Hne].
  - rewrite lookup_insert_eq. eauto.
  - now rewrite lookup_insert_ne.
Qed.

Lemma parents_closed_insert (h : gmap N Node) x n' :
  parents_closed h -> is_Some (h !! _parent n') -> parents_closed (<[x := n']> h).
Proof.
  intros Hc Hp y ny Hy. apply is_Some_insert_mono.
  destruct (decide (x = y)) as [<-|Hne].
  - rewrite lookup_insert_eq in Hy. now injection Hy as <-.
  - rewrite lookup_insert_ne in Hy by assumption. exact (Hc y ny Hy).
Qed.

(** On a closed heap [_root] returns, its result is a node of the heap, and
    the heap stays closed. *)
Lemma _root_closed (h : gmap N Node) x :
  parents_closed h -> is_Some (h !! x) ->
  exists r h', _root x h = Ret (r, h') /\ parents_closed h' /\ is_Some (h' !! r) /\
    forall y, is_Some (h !! y) -> is_Some (h' !! y).
Proof.
  intros Hc [n Hx]. destruct (decide (_parent n = x)) as [Pn|Pn].
  - exists x, h. rewrite (_root_self _ _ _ Hx Pn). eauto.
  - destruct (Hc x n Hx) as [p Hp]. destruct (Hc _ p Hp) as [g Hg].
    exists (_parent p), (<[x := set_parent (_parent p) n]> h).
    rewrite (_root_grandparent _ _ _ _ Hx Pn Hp).
    split; [reflexivity|]. split; [|split].
    + apply parents_closed_insert; [exact Hc|]. cbn. eauto.
    + apply is_Some_insert_mono. eauto.
    + intros y Hy. now apply is_Some_insert_mono.
Qed.

(** Linking [r] under [p] and adding to [p]'s size keeps the heap closed. *)
Lemma link_closed (h : gmap N Node) r p k :
  parents_closed h -> is_Some (h !! r) -> is_Some (h !! p) ->
  match (let! h3 := store_parent r p h in add_tree_size p k h3) with
  | Ret h' => parents_closed h'
  | Overflow => True
  | BadPtr | AssertFail | NoFuel => False
  end.
Proof.
  intros Hc [nr Hr] Hp. unfold store_parent. rewrite (load_Some _ _ _ Hr). cbn [obind].
  assert (Hc3 : parents_closed (<[r := set_parent p nr]> h))
    by (apply parents_closed_insert; [exact Hc|exact Hp]).
  destruct (is_Some_insert_mono h r (set_parent p nr) p Hp) as [nz Hz].
  unfold add_tree_size. rewrite (load_Some _ _ _ Hz). cbn [obind].
  destruct ((INT_MIN <=? _tree_size nz + k) && (_tree_size nz + k <=? INT_MAX));
    [|exact I].
  apply parents_closed_insert; [exact Hc3|]. exact (Hc3 p nz Hz).
Qed.

Lemma _union_closed ndebug (h : gmap N Node) a b :
  parents_closed h -> is_Some (h !! a) -> is_Some (h !! b) ->
  match _union ndebug a b h with
  | Ret h' => parents_closed h'
  | AssertFail => ndebug = false
  | Overflow => True
  | BadPtr | NoFuel => False
  end.
Proof.
  intros Hc [na Ha] [nb Hb]. unfold _union.
  rewrite (load_Some _ _ _ Ha), (load_Some _ _ _ Hb). cbn [obind].
  destruct (decide (_parent na = _parent nb)); [exact Hc|].
  destruct (_root_closed h a Hc) as (xroot & h1 & Hr1 & Hc1 & Hx1 & Hm1); [eauto|].
  rewrite Hr1. cbn [obind].
  destruct (_root_closed h1 b Hc1) as (yroot & h2 & Hr2 & Hc2 & Hy2 & Hm2); [eauto|].
  rewrite Hr2. cbn [obind].
  pose proof (Hm2 xroot Hx1) as Hx2.
  assert (Hlink : forall r p k,
            is_Some (h2 !! r) -> is_Some (h2 !! p) ->
            match (let! h3 := store_parent r p h2 in add_tree_size p k h3) with
            | Ret h' => parents_closed h'
            | AssertFail => ndebug = false
            | Overflow => True
            | BadPtr | NoFuel => False
            end).
  { intros r p k Hr Hp. pose proof (link_closed h2 r p k Hc2 Hr Hp) as Hl.
    destruct (let! h3 := store_parent r p h2 in add_tree_size p k h3); tauto. }
  destruct (negb ndebug && bool_decide (xroot = yroot)) eqn:Has.
  { apply andb_true_iff in Has as [Hn _]. now destruct ndebug. }
  destruct Hx2 as [rx Hrx]. destruct Hy2 as [ry Hry].
  rewrite (load_Some _ _ _ Hrx), (load_Some _ _ _ Hry). cbn [obind].
  destruct (_tree_size rx <? _tree_size ry); apply Hlink; eauto.
Qed.

(** No dangling parent: on a heap whose parent pointers all point into the
    heap (such as freshly constructed nodes), a sequence of [_union] calls
    on nodes of the heap never dereferences an address that holds no node
    and never loops; it returns a heap that is again closed, or stops at the
    assertion (only when assertions are compiled in) or at an [int]
    overflow of a size counter. *)
Theorem union_all_memory_safe (ndebug : bool) (calls : list (N * N)) :
  forall h : gmap N Node,
    parents_closed h -> calls_in_heap calls h ->
    match union_all ndebug calls h with
    | Ret h' => parents_closed h'
    | AssertFail => ndebug = false
    | Overflow => True
    | BadPtr | NoFuel => False
    end.
Proof.
  induction calls as [|[a b] calls IH]; intros h Hc Hin; [exact Hc|].
  cbn [union_all].
  destruct (Hin (a, b)) as [Ha Hb]; [apply list_elem_of_here|]. cbn [fst snd] in *.
  pose proof (_union_closed ndebug h a b Hc Ha Hb) as Hu.
  destruct (_union ndebug a b h) as [h1| | | |] eqn:Hret; cbn [obind]; try exact Hu.
  apply IH; [exact Hu|].
  pose proof (_union_union_find_only _ _ _ _ _ Hret) as Hufo.
  intros c Hcin. destruct (Hin c) as [H1 H2]; [now apply list_elem_of_further|].
  split.
  - specialize (Hufo (fst c)). destruct H1 as [n1 H1]. rewrite H1 in Hufo.
    destruct (h1 !! fst c); [eauto|tauto].
  - specialize (Hufo (snd c)). destruct H2 as [n2 H2]. rewrite H2 in Hufo.
    destruct (h1 !! snd c); [eauto|tauto].
Qed.

Lemma fresh_parents_closed hd ps : parents_closed (fresh hd ps).
Proof.
  intros x n. unfold fresh. induction ps as [|q ps IH]; cbn [foldr]; intros Hx.
  - now rewrite lookup_empty in Hx.
  - destruct (decide (q = x)) as [->|Hne].
    + rewrite lookup_insert_eq in Hx. injection Hx as <-. cbn.
      rewrite lookup_insert_eq. eauto.
    + rewrite lookup_insert_ne in Hx by assumption.
      apply is_Some_insert_mono. exact (IH Hx).
Qed.

Lemma union_all_memory_safe_witness :
  match union_all true [(0, 1); (2, 3); (0, 2); (0, 3)]%N pop4 with
  | Ret h' => parents_closed h'
  | AssertFail => true = false
  | Overflow => True
  | BadPtr | NoFuel => False
  end.
Proof.
  apply (union_all_memory_safe true [(0, 1); (2, 3); (0, 2); (0, 3)]%N pop4).
  - apply fresh_parents_closed.
  - apply pop4_calls_in_heap. repeat constructor.
Defined.

(** ** Termination of [_root] *)

(** The loop of [_root] cannot hang: on every heap, also one whose parent
    pointers form a cycle or point nowhere, the loop condition is tested at
    most twice, so any bound of two or more on the number of tests gives the
    result of [_root], and that result is never a loop that ran out. *)
Theorem root_loop_runs_at_most_once (fuel : nat) (x : N) (h : gmap N Node) :
  _root_loop (S (S fuel)) x x h = _root x h /\ _root x h <> NoFuel.
Proof.
  split; [apply _root_loop_fuel|apply _root_terminates].
Qed.

(** ** [dump] after [_precede] *)

(** Each [precede(u, v)] adds one edge line to the rendering of [u]: when
    neither the name of [u] nor the printed addresses hold a newline, the
    text [dump] writes for [u] has one line more than [u] has successors,
    before the calls and after them, and the number of successors has grown
    by the number of calls made on [u]. *)
Theorem dump_after_precede (show_ptr : N -> string)
    (h : gmap N Node) (calls : list (N * N)) (u : N) (n : Node) :
  calls_in_heap calls h ->
  h !! u = Some n ->
  count_lines (_name n) = 0%nat ->
  (forall p, count_lines (show_ptr p) = 0%nat) ->
  exists h' n', precede_all calls h = Ret h' /\ h' !! u = Some n' /\
    num_successors n' = (num_successors n + length (targets_of u calls))%nat /\
    count_lines (dump show_ptr u n) = S (num_successors n) /\
    count_lines (dump show_ptr u n') = S (num_successors n').
Proof.
  intros Hin Hu Hname Hptr.
  destruct (precede_all_lookup calls h Hin) as (h' & Hret & Hlk).
  exists h', (after_calls calls u n).
  split; [exact Hret|]. split; [now rewrite Hlk, Hu|].
  destruct (after_calls_fields calls u n) as (Hs & _ & _ & Hnm & _).
  split; [unfold num_successors; now rewrite Hs, length_app|].
  split.
  - now apply dump_line_count.
  - apply dump_line_count; [now rewrite Hnm|exact Hptr].
Qed.

Lemma dump_after_precede_witness :
  exists h' n', precede_all [(0, 1); (0, 2)]%N pop4 = Ret h' /\ h' !! 0%N = Some n' /\
    num_successors n' = 2%nat /\
    count_lines (dump show_ptr_demo 0%N n') = 3%nat.
Proof.
  destruct (dump_after_precede show_ptr_demo pop4 [(0, 1); (0, 2)]%N 0%N
              (new_Node 0%N (Host 0)))
    as (h' & n' & Hret & Hn & Hsz & _ & Hlines).
  - apply pop4_calls_in_heap. repeat constructor.
  - vm_compute. reflexivity.
  - reflexivity.
  - intros p. unfold show_ptr_demo. destruct (p =? 16)%N; reflexivity.
  - exists h', n'. rewrite Hlines, Hsz. auto.
Defined.

(** ** The forest never joins what no call joined *)

Section Related.

Variable R : relation N.
Hypothesis R_equiv : Equivalence R.

Lemma parents_related_insert (h : gmap N Node) x n' :
  parents_related R h -> R x (_parent n') -> parents_related R (<[x := n']> h).
Proof.
  intros Hi Hx z n Hz. destruct (decide (x = z)) as [<-|Hne].
  - rewrite lookup_insert_eq in Hz. now injection Hz as <-.
  - rewrite lookup_insert_ne in Hz by assumption. exact (Hi z n Hz).
Qed.

Lemma _root_related (h : gmap N Node) x r h' :
  parents_related R h -> _root x h = Ret (r, h') ->
  parents_related R h' /\ R x r.
Proof.
  intros Hi H.
  apply _root_Ret in H as (n & Hx & [(Pn & -> & ->)|(Pn & p & Hp & -> & ->)]).
  - split; [exact Hi|reflexivity].
  - assert (Hxr : R x (_parent p)).
    { transitivity (_parent n); [exact (Hi x n Hx)|exact (Hi _ p Hp)]. }
    split; [|exact Hxr]. now apply parents_related_insert.
Qed.

Lemma link_related (h : gmap N Node) r p k h' :
  parents_related R h -> R r p ->
  (let! h3 := store_parent r p h in add_tree_size p k h3) = Ret h' ->
  parents_related R h'.
Proof.
  intros Hi Hrp H. apply obind_Ret in H as (h3 & Hs & H).
  unfold store_parent in Hs. apply obind_Ret in Hs as (nr & Hnr & Hs).
  injection Hs as <-.
  assert (Hi3 : parents_related R (<[r := set_parent p nr]> h))
    by now apply parents_related_insert.
  unfold add_tree_size in H. apply obind_Ret in H as (nz & Hnz & H).
  apply load_Ret in Hnz.
  destruct ((INT_MIN <=? _tree_size nz + k) && (_tree_size nz + k <=? INT_MAX));
    [|discriminate].
  injection H as <-. apply parents_related_insert; [exact Hi3|].
  exact (Hi3 p nz Hnz).
Qed.

Lemma _union_related ndebug (h : gmap N Node) a b h' :
  parents_related R h -> R a b -> _union ndebug a b h = Ret h' ->
  parents_related R h'.
Proof.
  intros Hi Hab H. unfold _union in H.
  apply obind_Ret in H as (na & _ & H). apply obind_Ret in H as (nb & _ & H).
  destruct (decide (_parent na = _parent nb)); [now injection H as <-|].
  apply obind_Ret in H as ([xroot h1] & Hr1 & H).
  apply obind_Ret in H as ([yroot h2] & Hr2 & H).
  destruct (_root_related _ _ _ _ Hi Hr1) as [Hi1 Hax].
  destruct (_root_related _ _ _ _ Hi1 Hr2) as [Hi2 Hby].
  destruct (negb ndebug && bool_decide (xroot = yroot)); [discriminate|].
  apply obind_Ret in H as (rx & _ & H). apply obind_Ret in H as (ry & _ & H).
  assert (Hxy : R xroot yroot).
  { transitivity a; [now symmetry|]. now transitivity b. }
  destruct (_tree_size rx <? _tree_size ry).
  - exact (link_related _ _ _ _ _ Hi2 Hxy H).
  - refine (link_related _ _ _ _ _ Hi2 _ H). now symmetry.
Qed.

Lemma union_all_related ndebug calls : forall (h h' : gmap N Node),
  parents_related R h ->
  (forall c, c ∈ calls -> R (fst c) (snd c)) ->
  union_all ndebug calls h = Ret h' ->
  parents_related R h'.
Proof.
  induction calls as [|[a b] calls IH]; intros h h' Hi Hin H.
  - now injection H as <-.
  - cbn [union_all] in H. apply obind_Ret in H as (h1 & H1 & H).
    apply (IH h1 h'); [|intros c Hc; apply Hin; now apply list_elem_of_further|exact H].
    apply (_union_related ndebug h a b h1 Hi); [|exact H1].
    apply (Hin (a, b)). apply list_elem_of_here.
Qed.

Lemma true_root_related f (h : gmap N Node) : forall z t,
  parents_related R h -> true_root f h z = Some t -> R z t.
Proof.
  induction f as [|f IH]; intros z t Hi H; [discriminate|].
  cbn [true_root] in H. destruct (h !! z) as [n|] eqn:Hz; [|discriminate].
  destruct (decide (_parent n = z)).
  - injection H as <-. reflexivity.
  - transitivity (_parent n); [exact (Hi z n Hz)|]. now apply IH.
Qed.

End Related.

(** Starting from singletons, whenever a sequence of [_union] calls
    returns, two nodes with the same true root, and two nodes for which
    [_root] returns the same node, were connected by the calls: the forest
    never puts into one set two nodes that no chain of calls joined. *)
Theorem union_all_joins_only_connected (ndebug : bool) (calls : list (N * N))
    (h h' : gmap N Node) :
  all_singletons h ->
  union_all ndebug calls h = Ret h' ->
  (forall a b t, find_true h' a = Some t -> find_true h' b = Some t ->
     connected calls a b) /\
  (forall a b r h1 h2, _root a h' = Ret (r, h1) -> _root b h1 = Ret (r, h2) ->
     connected calls a b).
Proof.
  intros Hs Hret.
  assert (Heq : Equivalence (connected calls)) by (unfold connected; apply rtsc_equivalence).
  assert (Hi : parents_related (connected calls) h').
  { apply (union_all_related (connected calls) Heq ndebug calls h h'); [| |exact Hret].
    - intros z n Hz. rewrite (Hs z n Hz). reflexivity.
    - intros [a b] Hc. apply rtsc_lr. exact Hc. }
  split.
  - intros a b t Ha Hb. unfold find_true in *.
    transitivity t; [|symmetry];
      eapply (true_root_related (connected calls)); eassumption.
  - intros a b r h1 h2 Ha Hb.
    destruct (_root_related (connected calls) Heq _ _ _ _ Hi Ha) as [Hi1 Har].
    destruct (_root_related (connected calls) Heq _ _ _ _ Hi1 Hb) as [_ Hbr].
    transitivity r; [exact Har|now symmetry].
Qed.

Lemma fresh_all_singletons hd ps : all_singletons (fresh hd ps).
Proof.
  intros z n. unfold fresh. induction ps as [|q ps IH]; cbn [foldr]; intros Hz.
  - now rewrite lookup_empty in Hz.
  - destruct (decide (q = z)) as [->|Hne].
    + rewrite lookup_insert_eq in Hz. now injection Hz as <-.
    + rewrite lookup_insert_ne in Hz by assumption. exact (IH Hz).
Qed.

Lemma union_all_joins_only_connected_witness :
  exists h, union_all false calls8 pop8 = Ret h /\
    find_true h 5%N = Some 0%N /\ find_true h 3%N = Some 0%N /\
    connected calls8 5%N 3%N.
Proof.
  destruct calls8_forest as (h & Hh & _). exists h.
  assert (H5 : find_true h 5%N = Some 0%N) by (injection Hh as <-; vm_compute; reflexivity).
  assert (H3 : find_true h 3%N = Some 0%N) by (injection Hh as <-; vm_compute; reflexivity).
  split; [exact Hh|]. split; [exact H5|]. split; [exact H3|].
  exact (proj1 (union_all_joins_only_connected false calls8 pop8 h
                  (fresh_all_singletons _ _) Hh) 5%N 3%N 0%N H5 H3).
Defined.
